(** * Rate limiter: fixed window, sliding window log and leaky bucket over Redis

    A shallow embedding of [src/algorithms/*.ts] (the three limiter classes)
    and of [src/rate-limiter.ts] (the facade), together with the part of the
    Redis command set that the classes call.

    Conventions of the model:
    - [Date.now()] and Lua's [math.random()] are inputs of every [check];
      the store's clock is the same clock as [Date.now()] (milliseconds);
    - JavaScript and Lua numbers are idealised: integers are [Z], the
      fractional quantities of the leaky bucket are exact rationals [Q];
      rounding of doubles and of the JSON encoder is not modelled;
    - every Redis command is a function on the store that either replies or
      raises a Redis error; a Lua script stops at the first error;
    - the arithmetic is that of the source for a positive limit and a
      positive window ([valid]); a zero window, where JavaScript computes
      with Infinity and NaN, is outside the model. *)

From Stdlib Require Import ZArith QArith Qround Qminmax Sorted Lia Lqa.
From stdpp Require Import gmap strings list fin_maps pretty.

Local Open Scope Z_scope.

(** ** The Redis store *)

Module Redis.

(** Member of a sorted set, as built by the sliding window script:
    [now .. ':' .. math.random()].  The two components are kept apart
    (the separator makes the concatenation injective). *)
Definition member : Type := Z * N.

(** What a key holds.  A Redis string is split by what its readers make of
    it: [VInt] is a string that reads as a decimal integer (what INCR
    accepts), [VBucket] a string holding the JSON object written by the
    leaky bucket script ([level] and [lastLeakTime] both numbers), [VRaw]
    any other string. *)
Inductive value :=
| VInt (n : Z)
| VBucket (level : Q) (lastLeakTime : Z)
| VRaw (s : string)
| VZSet (z : gmap member Z).

Record entry := Entry { val : value; expireAt : option Z }.

Abbreviation store := (gmap string entry).

Inductive error :=
| NotAnInteger     (* INCR on a string that is not an integer *)
| WrongType        (* command against a key holding the wrong kind of value *)
| InvalidExpire    (* SET ... EX with a non-positive time *)
| ScriptError.     (* the Lua script itself raised (cjson.decode, indexing) *)

Inductive result (A : Type) :=
| Ok (a : A)
| Err (e : error).
Arguments Ok {A} a.
Arguments Err {A} e.

(** A command threads the store and may raise; the store it leaves behind
    is kept also when it raises. *)
Definition cmd (A : Type) : Type := store → result A * store.

#[global] Instance cmd_ret : MRet cmd := λ A a s, (Ok a, s).
#[global] Instance cmd_bind : MBind cmd := λ A B f m s,
  match m s with
  | (Ok a, s') => f a s'
  | (Err e, s') => (Err e, s')
  end.

Definition throw {A} (e : error) : cmd A := λ s, (Err e, s).

(** A key is gone once the clock has passed its expiry time; at the
    millisecond of its expiry it is still there. *)
Definition live (clock : Z) (e : entry) : bool :=
  match expireAt e with
  | Some t => clock <=? t
  | None => true
  end.

Definition lookup_live (clock : Z) (k : string) (s : store) : option entry :=
  match s !! k with
  | Some e => if live clock e then Some e else None
  | None => None
  end.

Definition INCR (clock : Z) (k : string) : cmd Z := λ s,
  match lookup_live clock k s with
  | None => (Ok 1, <[k := Entry (VInt 1) None]> s)
  | Some e =>
      match val e with
      | VInt n => (Ok (n + 1), <[k := Entry (VInt (n + 1)) (expireAt e)]> s)
      | VZSet _ => (Err WrongType, s)
      | VBucket _ _ | VRaw _ => (Err NotAnInteger, s)
      end
  end.

(** TTL: [-2] for a missing key, [-1] for a key without expiry, otherwise
    the remaining time rounded to seconds. *)
Definition TTL (clock : Z) (k : string) : cmd Z := λ s,
  (Ok match lookup_live clock k s with
      | None => -2
      | Some e =>
          match expireAt e with
          | None => -1
          | Some t => (t - clock + 500) / 1000
          end
      end, s).

(** EXPIRE with a non-positive time deletes the key. *)
Definition EXPIRE (clock : Z) (k : string) (seconds : Z) : cmd Z := λ s,
  match lookup_live clock k s with
  | None => (Ok 0, s)
  | Some e =>
      if seconds <=? 0 then (Ok 1, delete k s)
      else (Ok 1, <[k := Entry (val e) (Some (clock + seconds * 1000))]> s)
  end.

Definition DEL (clock : Z) (k : string) : cmd Z := λ s,
  (Ok match lookup_live clock k s with Some _ => 1 | None => 0 end, delete k s).

(** GET replies nil ([None]) for a missing key and the string otherwise. *)
Definition GET (clock : Z) (k : string) : cmd (option value) := λ s,
  match lookup_live clock k s with
  | None => (Ok None, s)
  | Some e =>
      match val e with
      | VZSet _ => (Err WrongType, s)
      | v => (Ok (Some v), s)
      end
  end.

Definition SET_EX (clock : Z) (k : string) (v : value) (seconds : Z) : cmd unit := λ s,
  if seconds <=? 0 then (Err InvalidExpire, s)
  else (Ok tt, <[k := Entry v (Some (clock + seconds * 1000))]> s).

Definition outside (lo hi : Z) (p : member * Z) : Prop := ¬ (lo ≤ p.2 ∧ p.2 ≤ hi).

#[global] Instance outside_dec lo hi p : Decision (outside lo hi p).
Proof. unfold outside. apply _. Defined.

(** ZREMRANGEBYSCORE removes the members whose score lies in [lo, hi]; a
    sorted set that becomes empty is removed with its key. *)
Definition ZREMRANGEBYSCORE (clock : Z) (k : string) (lo hi : Z) : cmd Z := λ s,
  match lookup_live clock k s with
  | None => (Ok 0, s)
  | Some e =>
      match val e with
      | VZSet z =>
          let z' := filter (outside lo hi) z in
          (Ok (Z.of_nat (size z) - Z.of_nat (size z')),
           if decide (size z' = 0%nat) then delete k s
           else <[k := Entry (VZSet z') (expireAt e)]> s)
      | _ => (Err WrongType, s)
      end
  end.

Definition ZCARD (clock : Z) (k : string) : cmd Z := λ s,
  match lookup_live clock k s with
  | None => (Ok 0, s)
  | Some e =>
      match val e with
      | VZSet z => (Ok (Z.of_nat (size z)), s)
      | _ => (Err WrongType, s)
      end
  end.

(** ZADD adds the member, or moves it to the new score when it is there. *)
Definition ZADD (clock : Z) (k : string) (score : Z) (m : member) : cmd Z := λ s,
  match lookup_live clock k s with
  | None => (Ok 1, <[k := Entry (VZSet {[m := score]}) None]> s)
  | Some e =>
      match val e with
      | VZSet z =>
          (Ok match z !! m with Some _ => 0 | None => 1 end,
           <[k := Entry (VZSet (<[m := score]> z)) (expireAt e)]> s)
      | _ => (Err WrongType, s)
      end
  end.

(** Lowest score of a sorted set. *)
Definition zset_min_score (z : gmap member Z) : option Z :=
  map_fold (λ _ sc acc, Some match acc with
                             | None => sc
                             | Some a => Z.min sc a
                             end) None z.

(** ZRANGE key 0 0 WITHSCORES, reduced to the score of the element it
    replies (the caller reads nothing else). *)
Definition ZRANGE_first (clock : Z) (k : string) : cmd (option Z) := λ s,
  match lookup_live clock k s with
  | None => (Ok None, s)
  | Some e =>
      match val e with
      | VZSet z => (Ok (zset_min_score z), s)
      | _ => (Err WrongType, s)
      end
  end.

End Redis.

Import Redis.

(** ** Results of a check ([src/types.ts]) *)

Record RateLimitResult := MkResult {
  allowed : bool;
  current : Z;
  limit : Z;
  remaining : Z;
  resetAt : Z;
  retryAfter : Z
}.

(** How the promise returned by [check] settles.  [FulfilledUndefined] is
    the object the fixed window builds when INCR failed inside the
    pipeline: [current] is [undefined], [allowed] is [false] and
    [remaining] is [NaN]; only the three integer fields are kept. *)
Inductive outcome :=
| Fulfilled (r : RateLimitResult)
| FulfilledUndefined (lim reset retry : Z)
| Rejected (e : error).

(** Constructor arguments shared by the three classes. *)
Record params := Params {
  maxRequests : Z;
  windowSeconds : Z;
  keyPrefix : string
}.

(** What a call reads from its environment. *)
Record env := Env {
  dateNow : Z;   (* Date.now(), milliseconds *)
  random : N     (* the draw of math.random() *)
}.

Definition key_of (p : params) (identifier : string) : string :=
  keyPrefix p +:+ identifier.

(** [Math.ceil (a / b)] for integers [a] and positive [b]. *)
Definition ceil_div (a b : Z) : Z := - ((- a) / b).

(** ** Fixed window counter *)

Module FixedWindowRateLimiter.

Definition default_keyPrefix : string := "rate_limit:fixed:".

Definition new (maxRequests windowSeconds : Z) (keyPrefix : option string) : params :=
  Params maxRequests windowSeconds (default default_keyPrefix keyPrefix).

Definition check (p : params) (identifier : string) (ev : env) (s : store)
  : outcome * store :=
  let key := key_of p identifier in
  let now := dateNow ev / 1000 in
  let windowStart := now / windowSeconds p * windowSeconds p in
  let resetAt := windowStart + windowSeconds p in
  (* the pipeline runs both commands, whatever the first one replies *)
  let '(incrResult, s1) := INCR (dateNow ev) key s in
  let '(ttlResult, s2) := TTL (dateNow ev) key s1 in
  let s3 :=
    match ttlResult with
    | Ok ttl =>
        if (ttl =? -1) || (ttl =? -2)
        then (EXPIRE (dateNow ev) key (resetAt - now) s2).2
        else s2
    | Err _ => s2
    end in
  match incrResult with
  | Ok current =>
      let allowed := current <=? maxRequests p in
      let remaining := Z.max 0 (maxRequests p - current) in
      let retryAfter := if allowed then 0 else resetAt - now in
      (Fulfilled (MkResult allowed current (maxRequests p) remaining resetAt retryAfter), s3)
  | Err _ =>
      (FulfilledUndefined (maxRequests p) resetAt (resetAt - now), s3)
  end.

Definition reset (p : params) (identifier : string) (ev : env) (s : store) : store :=
  (DEL (dateNow ev) (key_of p identifier) s).2.

End FixedWindowRateLimiter.

(** ** Sliding window log *)

Module SlidingWindowRateLimiter.

Definition default_keyPrefix : string := "rate_limit:sliding:".

Definition new (maxRequests windowSeconds : Z) (keyPrefix : option string) : params :=
  Params maxRequests windowSeconds (default default_keyPrefix keyPrefix).

(** The Lua script; [rnd] is the draw of [math.random()]. *)
Definition luaScript (clock : Z) (key : string)
    (now window_start max_requests window_seconds : Z) (rnd : N) : cmd Z :=
  _ ← ZREMRANGEBYSCORE clock key 0 window_start;
  current ← ZCARD clock key;
  current ← (if current <? max_requests
             then _ ← ZADD clock key now (now, rnd); mret (current + 1)
             else mret current);
  _ ← EXPIRE clock key window_seconds;
  mret current.

Definition getOldestTimestamp (clock : Z) (key : string) : cmd (option Z) :=
  ZRANGE_first clock key.

Definition check (p : params) (identifier : string) (ev : env) (s : store)
  : outcome * store :=
  let key := key_of p identifier in
  let now := dateNow ev in
  let windowStart := now - windowSeconds p * 1000 in
  match luaScript now key now windowStart (maxRequests p) (windowSeconds p) (random ev) s with
  | (Err e, s1) => (Rejected e, s1)
  | (Ok current, s1) =>
      let allowed := current <=? maxRequests p in
      let remaining := Z.max 0 (maxRequests p - current) in
      match getOldestTimestamp now key s1 with
      | (Err e, s2) => (Rejected e, s2)
      | (Ok oldestTimestamp, s2) =>
          let fallback := ceil_div now 1000 + windowSeconds p in
          let resetAt :=
            match oldestTimestamp with
            | Some t =>
                (* a timestamp of 0 is falsy *)
                if t =? 0 then fallback
                else ceil_div (t + windowSeconds p * 1000) 1000
            | None => fallback
            end in
          let retryAfter :=
            if allowed then 0 else Z.max 0 (resetAt - now / 1000) in
          (Fulfilled (MkResult allowed current (maxRequests p) remaining resetAt retryAfter), s2)
      end
  end.

Definition reset (p : params) (identifier : string) (ev : env) (s : store) : store :=
  (DEL (dateNow ev) (key_of p identifier) s).2.

End SlidingWindowRateLimiter.

(** ** Leaky bucket gauge *)

Module LeakyBucketRateLimiter.

Definition default_keyPrefix : string := "rate_limit:leaky:".

Definition new (maxRequests windowSeconds : Z) (keyPrefix : option string) : params :=
  Params maxRequests windowSeconds (default default_keyPrefix keyPrefix).

(** Requests per second: the quotient that the constructor stores as a
    double, taken here as the exact rational. *)
Definition leakRate (p : params) : Q :=
  (inject_Z (maxRequests p) / inject_Z (windowSeconds p))%Q.

(** [cjson.decode] followed by the reads of [data.level] and
    [data.lastLeakTime]: it yields the pair for a bucket object and raises
    on every other string. *)
Definition cjson_decode (v : value) : option (Q * Z) :=
  match v with
  | VBucket level lastLeakTime => Some (level, lastLeakTime)
  | _ => None
  end.

Definition Qltb (a b : Q) : bool :=
  match (a ?= b)%Q with
  | Lt => true
  | _ => false
  end.

(** The Lua script, up to its [return {allowed and 1 or 0, level}]. *)
Definition luaScript (clock : Z) (key : string)
    (now max_requests : Z) (leak_rate : Q) (window_seconds : Z) : cmd (Z * Q) :=
  bucket_data ← GET clock key;
  st ← match bucket_data with
       | None => mret (0%Q, now)
       | Some v =>
           match cjson_decode v with
           | Some d => mret d
           | None => throw ScriptError
           end
       end;
  let level := st.1 in
  let last_leak_time := st.2 in
  let time_passed := (inject_Z (now - last_leak_time) / 1000)%Q in
  let leaked := (time_passed * leak_rate)%Q in
  let level := Qmax 0 (level - leaked) in
  let allowed := Qltb level (inject_Z max_requests) in
  let level := if allowed then (level + 1)%Q else level in
  _ ← SET_EX clock key (VBucket level now) (window_seconds * 2);
  mret (if allowed then 1 else 0, level).

(** Redis turns a Lua number of a script's reply into an integer reply by
    dropping its fractional part. *)
Definition lua_number_to_integer (q : Q) : Z :=
  Z.quot (Qnum q) (Z.pos (Qden q)).

Definition eval (script : cmd (Z * Q)) : cmd (Z * Z) :=
  r ← script; mret (r.1, lua_number_to_integer r.2).

Definition check (p : params) (identifier : string) (ev : env) (s : store)
  : outcome * store :=
  let key := key_of p identifier in
  let now := dateNow ev in
  match eval (luaScript now key now (maxRequests p) (leakRate p) (windowSeconds p)) s with
  | (Err e, s1) => (Rejected e, s1)
  | (Ok (allowedNum, level), s1) =>
      let allowed := allowedNum =? 1 in
      let current := Qceiling (inject_Z level) in
      let remaining := Z.max 0 (maxRequests p - current) in
      let resetAt :=
        ceil_div now 1000
        + Qceiling (inject_Z (current - maxRequests p + 1) / leakRate p) in
      let retryAfter :=
        if allowed then 0
        else Z.max 1 (Qceiling (inject_Z (current - maxRequests p) / leakRate p)) in
      (Fulfilled (MkResult allowed current (maxRequests p) remaining
                    (* [resetAt || ...]: 0 is falsy *)
                    (if resetAt =? 0 then now / 1000 + windowSeconds p else resetAt)
                    retryAfter), s1)
  end.

Definition reset (p : params) (identifier : string) (ev : env) (s : store) : store :=
  (DEL (dateNow ev) (key_of p identifier) s).2.

End LeakyBucketRateLimiter.

(** ** The facade ([src/rate-limiter.ts]) *)

Inductive RateLimitAlgorithm := FIXED_WINDOW | SLIDING_WINDOW | LEAKY_BUCKET.

Record RateLimiterConfig := Config {
  algorithm : RateLimitAlgorithm;
  cfg_maxRequests : Z;
  cfg_windowSeconds : Z;
  cfg_keyPrefix : option string
}.

(** The three implementations of the interface [IRateLimitAlgorithm]. *)
Inductive IRateLimitAlgorithm :=
| FixedWindow (p : params)
| SlidingWindow (p : params)
| LeakyBucket (p : params).

Definition params_of (a : IRateLimitAlgorithm) : params :=
  match a with
  | FixedWindow p | SlidingWindow p | LeakyBucket p => p
  end.

Module RateLimiter.

(** [config.keyPrefix || "rate_limit:"]: a missing prefix and the empty
    string both give the default. *)
Definition keyPrefix_of (config : RateLimiterConfig) : string :=
  match cfg_keyPrefix config with
  | Some EmptyString | None => "rate_limit:"
  | Some s => s
  end.

Definition new (config : RateLimiterConfig) : IRateLimitAlgorithm :=
  let keyPrefix := keyPrefix_of config in
  match algorithm config with
  | FIXED_WINDOW =>
      FixedWindow (FixedWindowRateLimiter.new
        (cfg_maxRequests config) (cfg_windowSeconds config) (Some keyPrefix))
  | SLIDING_WINDOW =>
      SlidingWindow (SlidingWindowRateLimiter.new
        (cfg_maxRequests config) (cfg_windowSeconds config) (Some keyPrefix))
  | LEAKY_BUCKET =>
      LeakyBucket (LeakyBucketRateLimiter.new
        (cfg_maxRequests config) (cfg_windowSeconds config) (Some keyPrefix))
  end.

Definition check (a : IRateLimitAlgorithm) (identifier : string) (ev : env)
    (s : store) : outcome * store :=
  match a with
  | FixedWindow p => FixedWindowRateLimiter.check p identifier ev s
  | SlidingWindow p => SlidingWindowRateLimiter.check p identifier ev s
  | LeakyBucket p => LeakyBucketRateLimiter.check p identifier ev s
  end.

Definition reset (a : IRateLimitAlgorithm) (identifier : string) (ev : env)
    (s : store) : store :=
  match a with
  | FixedWindow p => FixedWindowRateLimiter.reset p identifier ev s
  | SlidingWindow p => SlidingWindowRateLimiter.reset p identifier ev s
  | LeakyBucket p => LeakyBucketRateLimiter.reset p identifier ev s
  end.

(** *** Requests and the default identifier

    The fields of a request that [defaultIdentifierFn] reads.  Header values
    are strings of one-byte characters (Node decodes headers as latin1). *)
Record request := Request {
  x_forwarded_for : option string;   (* req.headers["x-forwarded-for"] *)
  x_real_ip : option string;         (* req.headers["x-real-ip"] *)
  ip : option string;                (* req.ip *)
  remoteAddress : option string      (* req.connection?.remoteAddress *)
}.

(** A missing value and the empty string are both falsy. *)
Definition truthy (v : option string) : option string :=
  match v with
  | Some EmptyString | None => None
  | Some s => Some s
  end.

(** [s.split(sep)[0]]: what comes before the first separator (the comma
    is character 44). *)
Fixpoint split_first (sep : Ascii.ascii) (s : string) : string :=
  match s with
  | EmptyString => EmptyString
  | String a s' => if Ascii.eqb a sep then EmptyString else String a (split_first sep s')
  end.

(** The white space and line terminators of JavaScript among the one-byte
    characters: TAB, LF, VT, FF, CR, SP and NBSP. *)
Definition is_white_space (a : Ascii.ascii) : bool :=
  let n := Ascii.N_of_ascii a in
  ((n =? 9) || (n =? 10) || (n =? 11) || (n =? 12) || (n =? 13) || (n =? 32)
   || (n =? 160))%N.

Fixpoint trimStart (s : string) : string :=
  match s with
  | EmptyString => EmptyString
  | String a s' => if is_white_space a then trimStart s' else s
  end.

Definition trimEnd (s : string) : string :=
  String.rev (trimStart (String.rev s)).

Definition trim (s : string) : string := trimEnd (trimStart s).

Definition defaultIdentifierFn (req : request) : string :=
  match truthy (x_forwarded_for req) with
  | Some forwarded => trim (split_first (Ascii.ascii_of_nat 44) forwarded)
  | None =>
      match truthy (x_real_ip req) with
      | Some realIp => realIp
      | None =>
          match truthy (ip req) with
          | Some a => a
          | None =>
              match truthy (remoteAddress req) with
              | Some a => a
              | None => "unknown"
              end
          end
      end
  end.

(** [config.identifierFn || this.defaultIdentifierFn]. *)
Definition identifierFn_of (custom : option (request → string)) : request → string :=
  default defaultIdentifierFn custom.

Definition checkRequest (a : IRateLimitAlgorithm)
    (identifierFn : option (request → string)) (req : request) (ev : env)
    (s : store) : outcome * store :=
  check a (identifierFn_of identifierFn req) ev s.

(** *** The Express middleware

    What the middleware does to the response and to the chain, in order. *)
Inductive effect :=
| SetHeader (name value : string)
| OnLimitReached                       (* options.onLimitReached(req, res, result) *)
| Status429Json (message : string) (lim : Z) (cur : option Z) (reset retry : Z)
| ConsoleError                         (* console.error in the catch block *)
| Next.                                (* next() *)

(** The callback of the options either returns or throws. *)
Inductive callback := CallbackReturns | CallbackThrows.

Definition limit_headers (lim remaining reset : string) : list effect :=
  [SetHeader "X-RateLimit-Limit" lim;
   SetHeader "X-RateLimit-Remaining" remaining;
   SetHeader "X-RateLimit-Reset" reset].

(** The branch [if (!result.allowed)]; [cur] is [None] when
    [result.current] is [undefined] (JSON leaves the key out). *)
Definition limit_reached (onLimitReached : option callback)
    (lim : Z) (cur : option Z) (reset retry : Z) : list effect :=
  let answer :=
    Status429Json
      ("Rate limit exceeded. Try again in " +:+ pretty retry +:+ " seconds.")
      lim cur reset retry in
  SetHeader "Retry-After" (pretty retry)
  :: match onLimitReached with
     | None => [answer]
     | Some CallbackReturns => [OnLimitReached; answer]
     | Some CallbackThrows => [OnLimitReached; ConsoleError; Next]
     end.

Definition middleware (a : IRateLimitAlgorithm)
    (identifierFn : option (request → string)) (onLimitReached : option callback)
    (req : request) (ev : env) (s : store) : list effect * store :=
  match checkRequest a identifierFn req ev s with
  | (Fulfilled r, s') =>
      (limit_headers (pretty (limit r)) (pretty (remaining r)) (pretty (resetAt r))
       ++ (if allowed r then [Next]
           else limit_reached onLimitReached (limit r) (Some (current r))
                  (resetAt r) (retryAfter r)),
       s')
  | (FulfilledUndefined lim reset retry, s') =>
      (limit_headers (pretty lim) "NaN" (pretty reset)
       ++ limit_reached onLimitReached lim None reset retry,
       s')
  | (Rejected _, s') => ([ConsoleError; Next], s')
  end.

End RateLimiter.

(** ** Traces *)

Inductive op :=
| OpCheck (identifier : string) (ev : env)
| OpReset (identifier : string) (ev : env).

Definition step (a : IRateLimitAlgorithm) (o : op) (s : store) : store :=
  match o with
  | OpCheck identifier ev => (RateLimiter.check a identifier ev s).2
  | OpReset identifier ev => RateLimiter.reset a identifier ev s
  end.

(** Stores that a limiter can build from the empty store. *)
Inductive reachable (a : IRateLimitAlgorithm) : store → Prop :=
| reachable_empty : reachable a ∅
| reachable_step s o : reachable a s → reachable a (step a o s).

(** Successive checks of one identifier, with the outcome of each. *)
Fixpoint run_checks (a : IRateLimitAlgorithm) (identifier : string)
    (evs : list env) (s : store) : list outcome * store :=
  match evs with
  | [] => ([], s)
  | ev :: evs' =>
      let '(o, s1) := RateLimiter.check a identifier ev s in
      let '(os, s2) := run_checks a identifier evs' s1 in
      (o :: os, s2)
  end.

(** ** Vocabulary of the statements *)

(** The result of the fixed window check that brings the counter to [n] in
    window number [w], taken at second [now]. *)
Definition fixed_result (p : params) (w n now : Z) : RateLimitResult :=
  MkResult (n <=? maxRequests p) n (maxRequests p)
    (Z.max 0 (maxRequests p - n)) ((w + 1) * windowSeconds p)
    (if n <=? maxRequests p then 0 else (w + 1) * windowSeconds p - now).

(** The call is made in window number [w] of the fixed window clock. *)
Definition in_window (p : params) (w : Z) (ev : env) : Prop :=
  dateNow ev / 1000 / windowSeconds p = w.

(** Construction requires a positive limit and a positive window. *)
Definition valid (p : params) : Prop :=
  1 ≤ maxRequests p ∧ 1 ≤ windowSeconds p.

(** The invariants of a [RateLimitResult]. *)
Definition result_invariants (r : RateLimitResult) : Prop :=
  remaining r = Z.max 0 (limit r - current r)
  ∧ (retryAfter r = 0 ↔ allowed r = true)
  ∧ 0 ≤ current r.

(** What the keys of each limiter hold. *)
Definition log_within (p : params) (e : entry) : Prop :=
  ∃ z, val e = VZSet z ∧ Z.of_nat (size z) ≤ maxRequests p.

Definition counter_positive (e : entry) : Prop :=
  ∃ n exp, e = Entry (VInt n) (Some exp) ∧ 1 ≤ n.

Definition bucket_nonneg (e : entry) : Prop :=
  ∃ level t, val e = VBucket level t ∧ (0 <= level)%Q.

(** The invariant of the store of each kind of limiter. *)
Definition store_invariant (a : IRateLimitAlgorithm) : entry → Prop :=
  match a with
  | FixedWindow _ => counter_positive
  | SlidingWindow p => log_within p
  | LeakyBucket _ => bucket_nonneg
  end.

(** The result of a check that finds no state under its key. *)
Definition sliding_fresh_result (p : params) (ev : env) : RateLimitResult :=
  let now := dateNow ev in
  MkResult true 1 (maxRequests p) (Z.max 0 (maxRequests p - 1))
    (if now =? 0 then ceil_div now 1000 + windowSeconds p
     else ceil_div (now + windowSeconds p * 1000) 1000)
    0.

Definition leaky_fresh_result (p : params) (ev : env) : RateLimitResult :=
  let now := dateNow ev in
  let est := ceil_div now 1000
             + Qceiling (inject_Z (1 - maxRequests p + 1)
                         / LeakyBucketRateLimiter.leakRate p) in
  MkResult true 1 (maxRequests p) (Z.max 0 (maxRequests p - 1))
    (if est =? 0 then now / 1000 + windowSeconds p else est)
    0.

Definition fresh_result (a : IRateLimitAlgorithm) (ev : env) : RateLimitResult :=
  match a with
  | FixedWindow p =>
      fixed_result p (dateNow ev / 1000 / windowSeconds p) 1 (dateNow ev / 1000)
  | SlidingWindow p => sliding_fresh_result p ev
  | LeakyBucket p => leaky_fresh_result p ev
  end.

(** The key of a leaky bucket holds nothing, or a bucket with a level in
    [0, limit + 1) that last leaked no later than [bound]. *)
Definition bucket_before (p : params) (k : string) (bound : Z) (s : store) : Prop :=
  s !! k = None
  ∨ ∃ level t x, s !! k = Some (Entry (VBucket level t) x)
                 ∧ (0 <= level)%Q ∧ (level < inject_Z (maxRequests p) + 1)%Q
                 ∧ t ≤ bound.

(** The calls come with a clock that does not go back. *)
Definition clock_monotone (evs : list env) : Prop :=
  StronglySorted (λ a b, dateNow a ≤ dateNow b) evs.

(** ** Scenarios *)

(** A sliding window log of 3 requests per 5 seconds, and the store after
    three checks of "u2" in the same millisecond. *)
Definition sliding_3_per_5 : params := SlidingWindowRateLimiter.new 3 5 None.

Definition sliding_full_store : store :=
  (run_checks (SlidingWindow sliding_3_per_5) "u2"
     [Env 1000000 1; Env 1000000 2; Env 1000000 3] ∅).2.

(** Four calls within 600 milliseconds. *)
Definition sliding_burst : list env :=
  [Env 1000000 1; Env 1000200 2; Env 1000400 3; Env 1000600 4].

(** A leaky bucket of 5 requests per 10 seconds (0.5 requests leak per
    second): five checks of "u3" in one millisecond, then one a second later. *)
Definition leaky_5_per_10 : params := LeakyBucketRateLimiter.new 5 10 None.

Definition leaky_fill_then_wait : list env :=
  [Env 1000000 0; Env 1000000 0; Env 1000000 0; Env 1000000 0; Env 1000000 0;
   Env 1001000 0].

(** The key of "u3" holding text that is not JSON. *)
Definition leaky_corrupt_store : store :=
  {[ key_of leaky_5_per_10 "u3" := Entry (VRaw "not json") None ]}.

(** The level persisted under a key. *)
Definition stored_level (k : string) (s : store) : option Q :=
  match s !! k with
  | Some (Entry (VBucket level _) _) => Some level
  | _ => None
  end.

(** A command that writes under no key other than [key]. *)
Definition touches_only {A} (key : string) (c : cmd A) : Prop :=
  ∀ (s : store) (k : string), k ≠ key → (c s).2 !! k = s !! k.

(** A command whose reply, and whose write under [key], depend on the store
    only through what [key] holds. *)
Definition reads_only {A} (key : string) (c : cmd A) : Prop :=
  ∀ s s' : store,
    s !! key = s' !! key →
    (c s).1 = (c s').1 ∧ (c s).2 !! key = (c s').2 !! key.

(** The sorted set that the commands of a call at [clock] find under a key
    (empty when the key is missing or expired). *)
Definition live_log (clock : Z) (k : string) (s : store) : gmap member Z :=
  match lookup_live clock k s with
  | Some (Entry (VZSet z) _) => z
  | _ => ∅
  end.

(** The sorted set stored under a key, expired or not. *)
Definition stored_log (k : string) (s : store) : option (gmap member Z) :=
  match s !! k with
  | Some (Entry (VZSet z) _) => Some z
  | _ => None
  end.

(** The key holds a sorted set, if anything. *)
Definition holds_log (k : string) (s : store) : Prop :=
  ∀ e, s !! k = Some e → ∃ z, val e = VZSet z.

(** Every score of the set lies in [lo, hi]. *)
Definition scores_within (lo hi : Z) (z : gmap member Z) : Prop :=
  map_Forall (λ _ sc, lo ≤ sc ≤ hi) z.

(** The result that the leaky bucket check builds from the reply
    [{allowedNum, level}] of its script. *)
Definition leaky_reply_result (p : params) (now allowedNum level : Z) : RateLimitResult :=
  let allowed := allowedNum =? 1 in
  let current := Qceiling (inject_Z level) in
  let resetAt :=
    ceil_div now 1000
    + Qceiling (inject_Z (current - maxRequests p + 1) / LeakyBucketRateLimiter.leakRate p) in
  MkResult allowed current (maxRequests p) (Z.max 0 (maxRequests p - current))
    (if resetAt =? 0 then now / 1000 + windowSeconds p else resetAt)
    (if allowed then 0
     else Z.max 1 (Qceiling (inject_Z (current - maxRequests p)
                             / LeakyBucketRateLimiter.leakRate p))).

(** The level that the script persists and the flag it returns, from the
    level and the last leak time that it read. *)
Definition leaky_next (p : params) (now : Z) (level : Q) (last : Z) : bool * Q :=
  let level1 :=
    Qmax 0 (level - inject_Z (now - last) / 1000 * LeakyBucketRateLimiter.leakRate p) in
  let allowed := LeakyBucketRateLimiter.Qltb level1 (inject_Z (maxRequests p)) in
  (allowed, if allowed then (level1 + 1)%Q else level1).

(** What the middleware did, read off its effects. *)
Definition is_next (e : RateLimiter.effect) : bool :=
  match e with RateLimiter.Next => true | _ => false end.

Definition is_429 (e : RateLimiter.effect) : bool :=
  match e with RateLimiter.Status429Json _ _ _ _ _ => true | _ => false end.

(** The check settled with a result that is not allowed. *)
Definition not_allowed (o : outcome) : bool :=
  match o with
  | Fulfilled r => negb (allowed r)
  | FulfilledUndefined _ _ _ => true
  | Rejected _ => false
  end.

Definition throws (cb : option RateLimiter.callback) : bool :=
  match cb with Some RateLimiter.CallbackThrows => true | _ => false end.

(** * Properties *)

(** ** Arithmetic of windows *)

Lemma window_reset_after (W now : Z) :
  1 ≤ W → 1 ≤ now / W * W + W - now ≤ W.
Proof.
  intros HW. pose proof (Z.mod_pos_bound now W ltac:(lia)).
  pose proof (Z.div_mod now W ltac:(lia)). nia.
Qed.

Lemma window_clock_before_reset (W w clock : Z) :
  1 ≤ W → clock / 1000 / W = w → clock < (w + 1) * W * 1000.
Proof.
  intros HW <-.
  pose proof (Z.mod_pos_bound clock 1000 ltac:(lia)).
  pose proof (Z.div_mod clock 1000 ltac:(lia)).
  pose proof (Z.mod_pos_bound (clock / 1000) W ltac:(lia)).
  pose proof (Z.div_mod (clock / 1000) W ltac:(lia)).
  nia.
Qed.

Lemma window_expiry_after_reset (W w clock : Z) :
  1 ≤ W → clock / 1000 / W = w →
  (w + 1) * W * 1000 ≤ clock + (clock / 1000 / W * W + W - clock / 1000) * 1000.
Proof.
  intros HW <-.
  pose proof (Z.mod_pos_bound clock 1000 ltac:(lia)).
  pose proof (Z.div_mod clock 1000 ltac:(lia)).
  nia.
Qed.

(** ** Fixed window: one check *)

Section fixed_window.
Context (p : params) (identifier : string).
Let key := key_of p identifier.
Let L := maxRequests p.
Let W := windowSeconds p.

Lemma fixed_check_absent (ev : env) (s : store) :
  1 ≤ W → lookup_live (dateNow ev) key s = None →
  FixedWindowRateLimiter.check p identifier ev s
  = (Fulfilled (fixed_result p (dateNow ev / 1000 / W) 1 (dateNow ev / 1000)),
     <[key := Entry (VInt 1)
                (Some (dateNow ev
                       + (dateNow ev / 1000 / W * W + W - dateNow ev / 1000) * 1000))]> s).
Proof.
  intros HW Habs.
  unfold FixedWindowRateLimiter.check, INCR, TTL, EXPIRE, fixed_result.
  fold key L W. rewrite Habs. cbn -[Z.mul Z.div Z.add Z.sub].
  unfold lookup_live at 1. rewrite lookup_insert_eq. cbn -[Z.mul Z.div Z.add Z.sub].
  unfold lookup_live. rewrite lookup_insert_eq. cbn -[Z.mul Z.div Z.add Z.sub].
  pose proof (window_reset_after W (dateNow ev / 1000) HW) as Hr.
  destruct (Z.leb_spec (dateNow ev / 1000 / W * W + W - dateNow ev / 1000) 0); [lia|].
  rewrite insert_insert_eq.
  replace ((dateNow ev / 1000 / W + 1) * W) with (dateNow ev / 1000 / W * W + W) by lia.
  reflexivity.
Qed.

Lemma fixed_check_counted (ev : env) (s : store) (n exp : Z) :
  s !! key = Some (Entry (VInt n) (Some exp)) → dateNow ev ≤ exp →
  FixedWindowRateLimiter.check p identifier ev s
  = (Fulfilled (fixed_result p (dateNow ev / 1000 / W) (n + 1) (dateNow ev / 1000)),
     <[key := Entry (VInt (n + 1)) (Some exp)]> s).
Proof.
  intros Hs Hexp.
  assert (Hlive : ∀ m, lookup_live (dateNow ev) key (<[key := Entry (VInt m) (Some exp)]> s)
                       = Some (Entry (VInt m) (Some exp))).
  { intros m. unfold lookup_live. rewrite lookup_insert_eq. cbn.
    destruct (Z.leb_spec (dateNow ev) exp); [done | lia]. }
  assert (Hlive0 : lookup_live (dateNow ev) key s = Some (Entry (VInt n) (Some exp))).
  { unfold lookup_live. rewrite Hs. cbn.
    destruct (Z.leb_spec (dateNow ev) exp); [done | lia]. }
  unfold FixedWindowRateLimiter.check, INCR, TTL, EXPIRE, fixed_result.
  fold key L W. rewrite Hlive0. cbn -[Z.mul Z.div Z.add Z.sub].
  rewrite Hlive. cbn -[Z.mul Z.div Z.add Z.sub].
  assert (0 ≤ (exp - dateNow ev + 500) / 1000) by (apply Z.div_pos; lia).
  destruct (Z.eqb_spec ((exp - dateNow ev + 500) / 1000) (-1)); [lia|].
  destruct (Z.eqb_spec ((exp - dateNow ev + 500) / 1000) (-2)); [lia|].
  cbn -[Z.mul Z.div Z.add Z.sub].
  replace ((dateNow ev / 1000 / W + 1) * W) with (dateNow ev / 1000 / W * W + W) by lia.
  reflexivity.
Qed.

End fixed_window.

(** ** Fixed window: a run inside one window *)

Lemma fixed_run_counted (p : params) (identifier : string) (w : Z) (evs : list env) :
  ∀ (s : store) (n exp : Z),
    s !! key_of p identifier = Some (Entry (VInt n) (Some exp)) →
    (w + 1) * windowSeconds p * 1000 ≤ exp →
    1 ≤ windowSeconds p →
    Forall (in_window p w) evs →
    (run_checks (FixedWindow p) identifier evs s).1
    = imap (λ i ev, Fulfilled (fixed_result p w (n + 1 + Z.of_nat i) (dateNow ev / 1000))) evs.
Proof.
  induction evs as [|ev evs IH]; intros s n exp Hs Hexp HW Hall; [done|].
  apply Forall_cons in Hall as [Hev Hall].
  pose proof (window_clock_before_reset _ _ _ HW Hev) as Hlt.
  cbn [run_checks RateLimiter.check].
  rewrite (fixed_check_counted p identifier ev s n exp Hs) by lia.
  specialize (IH (<[key_of p identifier := Entry (VInt (n + 1)) (Some exp)]> s)
                (n + 1) exp (lookup_insert_eq _ _ _) Hexp HW Hall).
  destruct (run_checks _ _ evs _) as [os s2]. cbn in IH |- *. subst os.
  rewrite Hev. f_equal; [do 2 f_equal; lia|].
  apply imap_ext. intros i x _. cbn. do 2 f_equal. lia.
Qed.

Lemma fixed_run_absent (p : params) (identifier : string) (w : Z) (evs : list env)
    (s : store) :
  s !! key_of p identifier = None →
  1 ≤ windowSeconds p →
  Forall (in_window p w) evs →
  (run_checks (FixedWindow p) identifier evs s).1
  = imap (λ i ev, Fulfilled (fixed_result p w (1 + Z.of_nat i) (dateNow ev / 1000))) evs.
Proof.
  intros Hs HW Hall. destruct evs as [|ev evs]; [done|].
  apply Forall_cons in Hall as [Hev Hall].
  cbn [run_checks RateLimiter.check].
  rewrite fixed_check_absent; [|done|by unfold lookup_live; rewrite Hs].
  match goal with
  | |- context [run_checks _ _ evs ?s1] =>
      pose proof (fixed_run_counted p identifier w evs s1 1 _
                    (lookup_insert_eq _ _ _)
                    (window_expiry_after_reset _ _ _ HW Hev) HW Hall) as IH
  end.
  destruct (run_checks _ _ evs _) as [os s2]. cbn in IH |- *. subst os.
  rewrite Hev. f_equal.
  apply imap_ext. intros i x _. cbn. do 2 f_equal. lia.
Qed.

(** C4. Fixed Window Counter, from an absent key and with every call in one
    window (number [w]): the call of index [i] (counting from 0) returns
    [current = i + 1]; the first [limit] calls are allowed with
    [remaining = limit - current], which strictly decreases, and
    [retryAfter = 0]; every later call in the window, the [(limit + 1)]th
    first, is rejected with [retryAfter = resetAt - now >= 0].  In the
    scenario [limit = 10], [windowSeconds = 60], ten calls for "u1" at
    [t = 0] are allowed with [remaining] 9, 8, ..., 0 and the eleventh is
    rejected with [current = 11] and [retryAfter = 60]. *)
Theorem fixed_window_first_L_then_reject :
  (∀ (p : params) (identifier : string) (w : Z) (evs : list env) (s : store),
      1 ≤ windowSeconds p →
      s !! key_of p identifier = None →
      Forall (in_window p w) evs →
      ∀ (i : nat) (ev : env),
        evs !! i = Some ev →
        ∃ r : RateLimitResult,
          (run_checks (FixedWindow p) identifier evs s).1 !! i = Some (Fulfilled r)
          ∧ current r = Z.of_nat i + 1
          ∧ limit r = maxRequests p
          ∧ resetAt r = (w + 1) * windowSeconds p
          ∧ (Z.of_nat i < maxRequests p →
             allowed r = true
             ∧ remaining r = maxRequests p - (Z.of_nat i + 1)
             ∧ retryAfter r = 0)
          ∧ (maxRequests p ≤ Z.of_nat i →
             allowed r = false
             ∧ retryAfter r = resetAt r - dateNow ev / 1000
             ∧ 0 ≤ retryAfter r))
  ∧ (run_checks (RateLimiter.new (Config FIXED_WINDOW 10 60 None)) "u1"
       (replicate 11 (Env 0 0)) ∅).1
    = ((λ n, Fulfilled (MkResult true n 10 (10 - n) 60 0)) <$> seqZ 1 10)
      ++ [Fulfilled (MkResult false 11 10 0 60 60)].
Proof.
  split; [|by vm_compute].
  intros p identifier w evs s HW Hs Hall i ev Hi.
  rewrite (fixed_run_absent p identifier w evs s Hs HW Hall).
  eexists. split.
  { rewrite list_lookup_imap, Hi. reflexivity. }
  rewrite Forall_forall in Hall. pose proof (Hall ev) as Hev.
  assert (Hin : in_window p w ev).
  { apply Hev. apply list_elem_of_lookup. eauto. }
  pose proof (window_reset_after (windowSeconds p) (dateNow ev / 1000) HW) as Hr.
  unfold in_window in Hin. rewrite Hin in Hr.
  unfold fixed_result. cbn [current limit resetAt allowed remaining retryAfter].
  destruct (Z.leb_spec (1 + Z.of_nat i) (maxRequests p));
    repeat split; intros; first [done | lia].
Qed.

(** The eleventh of eleven calls at [t = 0] with [limit = 10], [windowSeconds = 60]. *)
Lemma fixed_window_first_L_then_reject_witness :
  ∃ r : RateLimitResult,
    (run_checks (FixedWindow (Params 10 60 "rate_limit:")) "u1"
       (replicate 11 (Env 0 0)) ∅).1 !! 10%nat = Some (Fulfilled r)
    ∧ current r = Z.of_nat 10 + 1
    ∧ limit r = 10
    ∧ resetAt r = (0 + 1) * 60
    ∧ (Z.of_nat 10 < 10 →
       allowed r = true ∧ remaining r = 10 - (Z.of_nat 10 + 1) ∧ retryAfter r = 0)
    ∧ (10 ≤ Z.of_nat 10 →
       allowed r = false ∧ retryAfter r = resetAt r - 0 / 1000 ∧ 0 ≤ retryAfter r).
Proof.
  assert (HW : 1 ≤ windowSeconds (Params 10 60 "rate_limit:")) by (cbn; lia).
  assert (Hall : Forall (in_window (Params 10 60 "rate_limit:") 0)
                   (replicate 11 (Env 0 0))) by repeat constructor.
  exact (proj1 fixed_window_first_L_then_reject
           (Params 10 60 "rate_limit:") "u1" 0 (replicate 11 (Env 0 0)) ∅
           HW eq_refl Hall 10%nat (Env 0 0) eq_refl).
Defined.

(** ** Live keys *)

Lemma lookup_live_insert_eq (clock : Z) (k : string) (e : entry) (s : store) :
  lookup_live clock k (<[k := e]> s) = if live clock e then Some e else None.
Proof. unfold lookup_live. by rewrite lookup_insert_eq. Qed.

Lemma lookup_live_delete_eq (clock : Z) (k : string) (s : store) :
  lookup_live clock k (delete k s) = None.
Proof. unfold lookup_live. by rewrite lookup_delete_eq. Qed.

Lemma lookup_live_Some (clock : Z) (k : string) (s : store) (e : entry) :
  lookup_live clock k s = Some e → s !! k = Some e ∧ live clock e = true.
Proof.
  unfold lookup_live. destruct (s !! k) as [e'|]; [|done].
  destruct (live clock e') eqn:Hl; [|done]. by intros [= <-].
Qed.

Lemma lookup_live_absent (clock : Z) (k : string) (s : store) :
  s !! k = None → lookup_live clock k s = None.
Proof. unfold lookup_live. by intros ->. Qed.

Lemma live_fresh_expiry (clock seconds : Z) (v : value) :
  1 ≤ seconds → live clock (Entry v (Some (clock + seconds * 1000))) = true.
Proof. intros H. cbn. apply Z.leb_le. lia. Qed.

Lemma live_same_expiry (clock : Z) (v v' : value) (x : option Z) :
  live clock (Entry v x) = live clock (Entry v' x).
Proof. reflexivity. Qed.

(** ** Sliding window: the script, case by case *)

Section sliding_script.
Context (clock : Z) (k : string) (now ws max W : Z) (rnd : N).
Hypothesis HW : 1 ≤ W.
Hypothesis Hmax : 1 ≤ max.

Lemma sliding_script_absent (s : store) :
  lookup_live clock k s = None →
  SlidingWindowRateLimiter.luaScript clock k now ws max W rnd s
  = (Ok 1, <[k := Entry (VZSet {[(now, rnd) := now]}) (Some (clock + W * 1000))]> s).
Proof.
  intros Habs.
  unfold SlidingWindowRateLimiter.luaScript, mbind, cmd_bind, mret, cmd_ret,
    ZREMRANGEBYSCORE, ZCARD, ZADD, EXPIRE.
  rewrite !Habs.
  destruct (Z.ltb_spec 0 max); [|lia].
  rewrite Habs, lookup_live_insert_eq. cbn [live expireAt val].
  destruct (Z.leb_spec W 0); [lia|].
  by rewrite insert_insert_eq.
Qed.

Lemma sliding_script_zset (s : store) (z : gmap member Z) (x : option Z) :
  lookup_live clock k s = Some (Entry (VZSet z) x) →
  let z1 := filter (outside 0 ws) z in
  SlidingWindowRateLimiter.luaScript clock k now ws max W rnd s
  = if Z.of_nat (size z1) <? max
    then (Ok (Z.of_nat (size z1) + 1),
          <[k := Entry (VZSet (<[(now, rnd) := now]> z1)) (Some (clock + W * 1000))]> s)
    else (Ok (Z.of_nat (size z1)),
          <[k := Entry (VZSet z1) (Some (clock + W * 1000))]> s).
Proof.
  intros Hz z1. apply lookup_live_Some in Hz as Hz'. destruct Hz' as [_ Hlive].
  unfold SlidingWindowRateLimiter.luaScript, mbind, cmd_bind, mret, cmd_ret,
    ZREMRANGEBYSCORE, ZCARD, ZADD, EXPIRE.
  rewrite Hz. cbn [val expireAt]. fold z1.
  destruct (decide (size z1 = 0%nat)) as [Hz1|Hz1].
  - rewrite !lookup_live_delete_eq. rewrite Hz1. cbn [Z.of_nat].
    destruct (Z.ltb_spec 0 max); [|lia].
    rewrite lookup_live_delete_eq, lookup_live_insert_eq. cbn [live expireAt val].
    destruct (Z.leb_spec W 0); [lia|].
    rewrite insert_insert_eq, insert_delete_eq.
    apply map_size_empty_inv in Hz1. rewrite Hz1. change (Z.of_nat 0) with 0.
    destruct (Z.ltb_spec 0 max); [|lia]. by rewrite insert_empty.
  - rewrite !lookup_live_insert_eq.
    rewrite (live_same_expiry clock (VZSet z1) (VZSet z) x), Hlive. cbn [val expireAt].
    destruct (Z.ltb_spec (Z.of_nat (size z1)) max).
    + rewrite lookup_live_insert_eq.
      rewrite (live_same_expiry clock _ (VZSet z) x), Hlive. cbn [val expireAt].
      rewrite lookup_live_insert_eq.
      rewrite (live_same_expiry clock _ (VZSet z) x), Hlive. cbn [val expireAt].
      destruct (Z.leb_spec W 0); [lia|].
      by rewrite !insert_insert_eq.
    + rewrite lookup_live_insert_eq.
      rewrite (live_same_expiry clock (VZSet z1) (VZSet z) x), Hlive. cbn [val expireAt].
      destruct (Z.leb_spec W 0); [lia|].
      by rewrite !insert_insert_eq.
Qed.

End sliding_script.

(** ** Sliding window: one check on a store of logs *)

Lemma sliding_check_logs (p : params) (identifier : string) (ev : env) (s : store) :
  valid p →
  map_Forall (λ _, log_within p) s →
  ∃ (r : RateLimitResult) (s' : store),
    SlidingWindowRateLimiter.check p identifier ev s = (Fulfilled r, s')
    ∧ map_Forall (λ _, log_within p) s'
    ∧ allowed r = true
    ∧ 1 ≤ current r ≤ maxRequests p
    ∧ limit r = maxRequests p
    ∧ remaining r = Z.max 0 (maxRequests p - current r)
    ∧ retryAfter r = 0.
Proof.
  intros [Hmax HW] Hinv.
  unfold SlidingWindowRateLimiter.check,
    SlidingWindowRateLimiter.getOldestTimestamp, ZRANGE_first.
  destruct (lookup_live (dateNow ev) (key_of p identifier) s) as [e|] eqn:Hk.
  - apply lookup_live_Some in Hk as Hk'. destruct Hk' as [Hs _].
    destruct (Hinv _ _ Hs) as (z & Hz & Hsize).
    destruct e as [v x]. cbn in Hz. subst v.
    rewrite (sliding_script_zset _ _ _ _ _ _ _ HW Hmax s z x Hk). cbn zeta.
    set (z1 := filter (outside 0 (dateNow ev - windowSeconds p * 1000)) z).
    assert (Hz1 : Z.of_nat (size z1) ≤ maxRequests p).
    { pose proof (map_size_filter (outside 0 (dateNow ev - windowSeconds p * 1000)) z).
      fold z1 in H. lia. }
    destruct (Z.ltb_spec (Z.of_nat (size z1)) (maxRequests p)) as [Hlt|Hge].
    + rewrite lookup_live_insert_eq, live_fresh_expiry by done. cbn [val].
      destruct (Z.leb_spec (Z.of_nat (size z1) + 1) (maxRequests p)); [|lia].
      do 2 eexists. split; [reflexivity|]. cbn.
      split; [|repeat split; lia].
      apply map_Forall_insert_2; [|done].
      eexists. split; [reflexivity|].
      rewrite map_size_insert. destruct (z1 !! _); cbn; lia.
    + rewrite lookup_live_insert_eq, live_fresh_expiry by done. cbn [val].
      destruct (Z.leb_spec (Z.of_nat (size z1)) (maxRequests p)); [|lia].
      do 2 eexists. split; [reflexivity|]. cbn.
      split; [|repeat split; lia].
      apply map_Forall_insert_2; [|done].
      eexists. split; [reflexivity|]. lia.
  - rewrite (sliding_script_absent _ _ _ _ _ _ _ HW Hmax s Hk).
    rewrite lookup_live_insert_eq, live_fresh_expiry by done. cbn [val].
    destruct (Z.leb_spec 1 (maxRequests p)); [|lia].
    do 2 eexists. split; [reflexivity|]. cbn.
    split; [|repeat split; lia].
    apply map_Forall_insert_2; [|done].
    eexists. split; [reflexivity|]. rewrite map_size_singleton. lia.
Qed.

Lemma reset_preserves (P : entry → Prop) (a : IRateLimitAlgorithm)
    (identifier : string) (ev : env) (s : store) :
  map_Forall (λ _, P) s → map_Forall (λ _, P) (RateLimiter.reset a identifier ev s).
Proof. intros H. destruct a; cbn; by apply map_Forall_delete. Qed.

Lemma sliding_reachable_logs (p : params) (s : store) :
  valid p → reachable (SlidingWindow p) s → map_Forall (λ _, log_within p) s.
Proof.
  intros Hp Hr. induction Hr as [|s o Hr IH]; [apply map_Forall_empty|].
  destruct o as [identifier ev|identifier ev].
  - destruct (sliding_check_logs p identifier ev s Hp IH) as (r & s' & Hc & Hs' & _).
    unfold step, RateLimiter.check. by rewrite Hc.
  - by apply reset_preserves.
Qed.

(** C10. Sliding Window Log, for a positive limit and window: in every
    store reachable from the empty one by checks and resets, every key holds
    a sorted set of at most [limit] entries. *)
Theorem sliding_log_never_exceeds_limit (p : params) (s : store) :
  valid p →
  reachable (SlidingWindow p) s →
  ∀ (k : string) (e : entry),
    s !! k = Some e →
    ∃ z : gmap member Z, val e = VZSet z ∧ Z.of_nat (size z) ≤ maxRequests p.
Proof.
  intros Hp Hr k e Hk.
  exact (sliding_reachable_logs p s Hp Hr k e Hk).
Qed.

(** The log of "u2" after one check. *)
Lemma sliding_log_never_exceeds_limit_witness :
  ∃ z : gmap member Z,
    val (Entry (VZSet {[(1000000, 1%N) := 1000000]}) (Some 1005000)) = VZSet z
    ∧ Z.of_nat (size z) ≤ maxRequests sliding_3_per_5.
Proof.
  assert (Hp : valid sliding_3_per_5) by (split; cbn; lia).
  exact (sliding_log_never_exceeds_limit sliding_3_per_5
           (step (SlidingWindow sliding_3_per_5) (OpCheck "u2" (Env 1000000 1)) ∅)
           Hp (reachable_step _ _ _ (reachable_empty _))
           (key_of sliding_3_per_5 "u2") _ eq_refl).
Defined.

(** Behind C1 and C2: on a store reachable by checks and resets (positive
    limit and window) the sliding window check always answers
    [allowed = true]. *)
Lemma sliding_check_never_rejects (p : params) (identifier : string) (ev : env)
    (s : store) :
  valid p →
  reachable (SlidingWindow p) s →
  ∃ (r : RateLimitResult) (s' : store),
    SlidingWindowRateLimiter.check p identifier ev s = (Fulfilled r, s')
    ∧ allowed r = true.
Proof.
  intros Hp Hr.
  destruct (sliding_check_logs p identifier ev s Hp (sliding_reachable_logs p s Hp Hr))
    as (r & s' & Hc & _ & Hal & _).
  by exists r, s'.
Qed.

(** C1 (the code departs from it). With [limit = 3] and [windowSeconds = 5],
    after three checks of "u2" the pruned log of a fourth check one second
    later holds 3 = limit entries; the check inserts nothing and returns
    [current = 3], yet it reports [allowed = true]. *)
Theorem sliding_check_at_limit_reports_allowed :
  let key := key_of sliding_3_per_5 "u2" in
  let ev := Env 1001000 4 in
  reachable (SlidingWindow sliding_3_per_5) sliding_full_store
  ∧ (ZCARD 1001000 key
       (ZREMRANGEBYSCORE 1001000 key 0 (1001000 - 5 * 1000) sliding_full_store).2).1
    = Ok 3
  ∧ (SlidingWindowRateLimiter.check sliding_3_per_5 "u2" ev sliding_full_store).1
    = Fulfilled (MkResult true 3 3 0 1005 0)
  ∧ (ZCARD 1001000 key
       (SlidingWindowRateLimiter.check sliding_3_per_5 "u2" ev sliding_full_store).2).1
    = Ok 3.
Proof.
  cbn zeta. split; [|by vm_compute].
  unfold sliding_full_store.
  change (reachable (SlidingWindow sliding_3_per_5)
            (step (SlidingWindow sliding_3_per_5) (OpCheck "u2" (Env 1000000 3))
               (step (SlidingWindow sliding_3_per_5) (OpCheck "u2" (Env 1000000 2))
                  (step (SlidingWindow sliding_3_per_5) (OpCheck "u2" (Env 1000000 1)) ∅)))).
  repeat apply reachable_step. apply reachable_empty.
Qed.

(** C2 (the code departs from it). With [limit = 3] and [windowSeconds = 5],
    four checks of one identifier within 600 milliseconds all return
    [allowed = true]. *)
Theorem sliding_burst_all_allowed :
  Forall (λ ev, 1000000 ≤ dateNow ev < 1000000 + 5 * 1000) sliding_burst
  ∧ (run_checks (SlidingWindow sliding_3_per_5) "u2" sliding_burst ∅).1
    = [Fulfilled (MkResult true 1 3 2 1005 0);
       Fulfilled (MkResult true 2 3 1 1005 0);
       Fulfilled (MkResult true 3 3 0 1005 0);
       Fulfilled (MkResult true 3 3 0 1005 0)].
Proof.
  split; [|by vm_compute].
  unfold sliding_burst. repeat constructor; cbn; lia.
Qed.

(** ** Numbers of the leaky bucket *)

Lemma Qltb_lt (a b : Q) : LeakyBucketRateLimiter.Qltb a b = true ↔ (a < b)%Q.
Proof.
  unfold LeakyBucketRateLimiter.Qltb. rewrite Qlt_alt.
  destruct (a ?= b)%Q; split; congruence.
Qed.

Lemma lua_number_floor (q : Q) :
  (0 <= q)%Q → LeakyBucketRateLimiter.lua_number_to_integer q = Qfloor q.
Proof.
  destruct q as [n d]. unfold Qle. cbn. intros Hn.
  apply Z.quot_div_nonneg; lia.
Qed.

Lemma lua_number_nonneg (q : Q) :
  (0 <= q)%Q → 0 ≤ LeakyBucketRateLimiter.lua_number_to_integer q.
Proof.
  intros Hq. rewrite lua_number_floor by done.
  change 0 with (Qfloor 0). by apply Qfloor_resp_le.
Qed.

Lemma lua_number_eq (q : Q) (n : Z) :
  (0 ≤ n) → (q == inject_Z n)%Q → LeakyBucketRateLimiter.lua_number_to_integer q = n.
Proof.
  intros Hn Hq. rewrite lua_number_floor.
  - rewrite Hq. apply Qfloor_Z.
  - rewrite Hq. change 0%Q with (inject_Z 0). by rewrite <- Zle_Qle.
Qed.

Lemma leak_nonneg (a : Q) : (0 <= Qmax 0 a)%Q.
Proof. apply Q.le_max_l. Qed.

(** ** Leaky bucket: the script, case by case *)

Section leaky_script.
Context (clock : Z) (k : string) (now max : Z) (rate : Q) (W : Z).
Hypothesis HW : 1 ≤ W.

(** The script on a bucket of [level] last leaked at [last]. *)
Lemma leaky_script_bucket (s : store) (level : Q) (last : Z) (x : option Z) :
  lookup_live clock k s = Some (Entry (VBucket level last) x) →
  LeakyBucketRateLimiter.luaScript clock k now max rate W s
  = let level1 := Qmax 0 (level - inject_Z (now - last) / 1000 * rate) in
    let allowed := LeakyBucketRateLimiter.Qltb level1 (inject_Z max) in
    let level2 := if allowed then (level1 + 1)%Q else level1 in
    (Ok (if allowed then 1 else 0, level2),
     <[k := Entry (VBucket level2 now) (Some (clock + W * 2 * 1000))]> s).
Proof.
  intros Hk.
  unfold LeakyBucketRateLimiter.luaScript, mbind, cmd_bind, mret, cmd_ret, GET, SET_EX.
  rewrite Hk. cbn [val LeakyBucketRateLimiter.cjson_decode fst snd].
  destruct (Z.leb_spec (W * 2) 0); [lia|]. reflexivity.
Qed.

Lemma leaky_script_absent (s : store) :
  lookup_live clock k s = None →
  LeakyBucketRateLimiter.luaScript clock k now max rate W s
  = let level1 := Qmax 0 (0 - inject_Z (now - now) / 1000 * rate) in
    let allowed := LeakyBucketRateLimiter.Qltb level1 (inject_Z max) in
    let level2 := if allowed then (level1 + 1)%Q else level1 in
    (Ok (if allowed then 1 else 0, level2),
     <[k := Entry (VBucket level2 now) (Some (clock + W * 2 * 1000))]> s).
Proof.
  intros Hk.
  unfold LeakyBucketRateLimiter.luaScript, mbind, cmd_bind, mret, cmd_ret, GET, SET_EX.
  rewrite Hk. cbn [fst snd].
  destruct (Z.leb_spec (W * 2) 0); [lia|]. reflexivity.
Qed.

End leaky_script.

(** The script stops before any write when the payload cannot be read. *)
Lemma leaky_script_unreadable (clock : Z) (k : string) (now max : Z) (rate : Q)
    (W : Z) (s : store) (e : entry) :
  lookup_live clock k s = Some e →
  LeakyBucketRateLimiter.cjson_decode (val e) = None →
  ∃ err, LeakyBucketRateLimiter.luaScript clock k now max rate W s = (Err err, s).
Proof.
  intros Hk Hd.
  unfold LeakyBucketRateLimiter.luaScript, mbind, cmd_bind, mret, cmd_ret, GET, throw.
  rewrite Hk. destruct (val e); cbn in Hd |- *; try discriminate; eauto.
Qed.

(** ** Leaky bucket: one check on a store of buckets *)

Lemma leaky_result_of_reply (p : params) (now allowedNum : Z) (level : Q) :
  (0 <= level)%Q →
  allowedNum = 0 ∨ allowedNum = 1 →
  let n := LeakyBucketRateLimiter.lua_number_to_integer level in
  let current := Qceiling (inject_Z n) in
  let est := ceil_div now 1000
             + Qceiling (inject_Z (current - maxRequests p + 1)
                         / LeakyBucketRateLimiter.leakRate p) in
  result_invariants
    (MkResult (allowedNum =? 1) current (maxRequests p)
       (Z.max 0 (maxRequests p - current))
       (if est =? 0 then now / 1000 + windowSeconds p else est)
       (if allowedNum =? 1 then 0
        else Z.max 1 (Qceiling (inject_Z (current - maxRequests p)
                                / LeakyBucketRateLimiter.leakRate p)))).
Proof.
  intros Hl Ha n current est. unfold result_invariants.
  cbn [remaining limit current retryAfter allowed].
  split; [reflexivity|]. split.
  - destruct Ha as [-> | ->]; cbn; [split; [lia | discriminate] | done].
  - subst current n. rewrite Qceiling_Z. by apply lua_number_nonneg.
Qed.

Lemma leaky_check_buckets (p : params) (identifier : string) (ev : env) (s : store) :
  valid p →
  map_Forall (λ _, bucket_nonneg) s →
  ∃ (r : RateLimitResult) (s' : store),
    LeakyBucketRateLimiter.check p identifier ev s = (Fulfilled r, s')
    ∧ map_Forall (λ _, bucket_nonneg) s'
    ∧ result_invariants r.
Proof.
  intros [Hmax HW] Hinv.
  unfold LeakyBucketRateLimiter.check, LeakyBucketRateLimiter.eval, mbind, cmd_bind,
    mret, cmd_ret.
  destruct (lookup_live (dateNow ev) (key_of p identifier) s) as [e|] eqn:Hk.
  - apply lookup_live_Some in Hk as Hk'. destruct Hk' as [Hs _].
    destruct (Hinv _ _ Hs) as (level & t & Hv & Hlevel).
    destruct e as [v x]. cbn in Hv. subst v.
    rewrite (leaky_script_bucket _ _ _ _ _ _ HW s level t x Hk). cbv zeta.
    set (level1 := Qmax 0 _).
    assert (0 <= level1)%Q by apply leak_nonneg.
    destruct (LeakyBucketRateLimiter.Qltb level1 _); cbn [fst snd].
    + do 2 eexists. split; [reflexivity|]. split.
      * apply map_Forall_insert_2; [|done]. do 2 eexists. split; [reflexivity|]. lra.
      * apply (leaky_result_of_reply p (dateNow ev) 1); [lra | by right].
    + do 2 eexists. split; [reflexivity|]. split.
      * apply map_Forall_insert_2; [|done]. do 2 eexists. split; [reflexivity|]. lra.
      * apply (leaky_result_of_reply p (dateNow ev) 0); [lra | by left].
  - rewrite (leaky_script_absent _ _ _ _ _ _ HW s Hk). cbv zeta.
    set (level1 := Qmax 0 _).
    assert (0 <= level1)%Q by apply leak_nonneg.
    destruct (LeakyBucketRateLimiter.Qltb level1 _); cbn [fst snd].
    + do 2 eexists. split; [reflexivity|]. split.
      * apply map_Forall_insert_2; [|done]. do 2 eexists. split; [reflexivity|]. lra.
      * apply (leaky_result_of_reply p (dateNow ev) 1); [lra | by right].
    + do 2 eexists. split; [reflexivity|]. split.
      * apply map_Forall_insert_2; [|done]. do 2 eexists. split; [reflexivity|]. lra.
      * apply (leaky_result_of_reply p (dateNow ev) 0); [lra | by left].
Qed.

(** ** Fixed window: one check on a store of counters *)

Lemma fixed_result_invariants (p : params) (now n : Z) :
  1 ≤ windowSeconds p → 1 ≤ n →
  result_invariants (fixed_result p (now / windowSeconds p) n now).
Proof.
  intros HW Hn. unfold result_invariants, fixed_result.
  cbn [remaining limit current retryAfter allowed].
  pose proof (window_reset_after (windowSeconds p) now HW).
  split; [reflexivity|]. split; [|lia].
  destruct (n <=? maxRequests p); [done|]. split; [lia | discriminate].
Qed.

Lemma fixed_check_counters (p : params) (identifier : string) (ev : env) (s : store) :
  valid p →
  map_Forall (λ _, counter_positive) s →
  ∃ (r : RateLimitResult) (s' : store),
    FixedWindowRateLimiter.check p identifier ev s = (Fulfilled r, s')
    ∧ map_Forall (λ _, counter_positive) s'
    ∧ result_invariants r.
Proof.
  intros [Hmax HW] Hinv.
  destruct (lookup_live (dateNow ev) (key_of p identifier) s) as [e|] eqn:Hk.
  - apply lookup_live_Some in Hk as [Hs Hlive].
    destruct (Hinv _ _ Hs) as (n & exp & -> & Hn).
    cbn in Hlive. apply Z.leb_le in Hlive.
    rewrite (fixed_check_counted p identifier ev s n exp Hs Hlive).
    do 2 eexists. split; [reflexivity|]. split.
    + apply map_Forall_insert_2; [|done]. do 2 eexists. split; [reflexivity|]. lia.
    + apply fixed_result_invariants; lia.
  - rewrite (fixed_check_absent p identifier ev s HW Hk).
    do 2 eexists. split; [reflexivity|]. split.
    + apply map_Forall_insert_2; [|done]. do 2 eexists. split; [reflexivity|]. lia.
    + apply fixed_result_invariants; lia.
Qed.

(** ** Every limiter: results on reachable stores *)

Lemma check_on_invariant (a : IRateLimitAlgorithm) (identifier : string) (ev : env)
    (s : store) :
  valid (params_of a) →
  map_Forall (λ _, store_invariant a) s →
  ∃ (r : RateLimitResult) (s' : store),
    RateLimiter.check a identifier ev s = (Fulfilled r, s')
    ∧ map_Forall (λ _, store_invariant a) s'
    ∧ result_invariants r.
Proof.
  intros Hp Hinv. destruct a as [p|p|p]; cbn [RateLimiter.check store_invariant params_of] in *.
  - by apply fixed_check_counters.
  - destruct (sliding_check_logs p identifier ev s Hp Hinv)
      as (r & s' & Hc & Hs' & Hal & Hcur & Hlim & Hrem & Hret).
    exists r, s'. repeat split; try done.
    + by rewrite Hlim.
    + lia.
  - by apply leaky_check_buckets.
Qed.

Lemma reachable_store_invariant (a : IRateLimitAlgorithm) (s : store) :
  valid (params_of a) → reachable a s → map_Forall (λ _, store_invariant a) s.
Proof.
  intros Hp Hr. induction Hr as [|s o Hr IH]; [apply map_Forall_empty|].
  destruct o as [identifier ev|identifier ev].
  - destruct (check_on_invariant a identifier ev s Hp IH) as (r & s' & Hc & Hs' & _).
    unfold step. by rewrite Hc.
  - by apply reset_preserves.
Qed.

(** C7. For each of the three algorithms with a positive limit and window,
    every identifier and every store reachable by checks and resets: check
    returns a result, and the result satisfies
    [remaining = max(0, limit - current)], [retryAfter = 0 <-> allowed] and
    [0 <= current]. *)
Theorem check_result_invariants (a : IRateLimitAlgorithm) (identifier : string)
    (ev : env) (s : store) :
  valid (params_of a) →
  reachable a s →
  ∃ (r : RateLimitResult) (s' : store),
    RateLimiter.check a identifier ev s = (Fulfilled r, s')
    ∧ remaining r = Z.max 0 (limit r - current r)
    ∧ (retryAfter r = 0 ↔ allowed r = true)
    ∧ 0 ≤ current r.
Proof.
  intros Hp Hr.
  destruct (check_on_invariant a identifier ev s Hp
              (reachable_store_invariant a s Hp Hr)) as (r & s' & Hc & _ & Hres).
  exists r, s'. by split.
Qed.

(** The first check of a leaky bucket of 5 requests per 10 seconds. *)
Lemma check_result_invariants_witness :
  ∃ (r : RateLimitResult) (s' : store),
    RateLimiter.check (LeakyBucket (Params 5 10 "rate_limit:leaky:")) "u3"
      (Env 1000000 0) ∅ = (Fulfilled r, s')
    ∧ remaining r = Z.max 0 (limit r - current r)
    ∧ (retryAfter r = 0 ↔ allowed r = true)
    ∧ 0 ≤ current r.
Proof.
  assert (Hp : valid (params_of (LeakyBucket (Params 5 10 "rate_limit:leaky:"))))
    by (split; cbn; lia).
  exact (check_result_invariants (LeakyBucket (Params 5 10 "rate_limit:leaky:")) "u3"
           (Env 1000000 0) ∅ Hp (reachable_empty _)).
Defined.

(** ** A check that finds no state *)

Lemma sliding_check_absent (p : params) (identifier : string) (ev : env) (s : store) :
  valid p →
  lookup_live (dateNow ev) (key_of p identifier) s = None →
  (SlidingWindowRateLimiter.check p identifier ev s).1
  = Fulfilled (sliding_fresh_result p ev).
Proof.
  intros [Hmax HW] Hk.
  unfold SlidingWindowRateLimiter.check,
    SlidingWindowRateLimiter.getOldestTimestamp, ZRANGE_first.
  rewrite (sliding_script_absent _ _ _ _ _ _ _ HW Hmax s Hk).
  rewrite lookup_live_insert_eq, live_fresh_expiry by done. cbn [val fst].
  unfold zset_min_score. rewrite map_fold_singleton.
  unfold sliding_fresh_result.
  destruct (Z.leb_spec 1 (maxRequests p)); [|lia]. reflexivity.
Qed.

Lemma leaky_check_absent (p : params) (identifier : string) (ev : env) (s : store) :
  valid p →
  lookup_live (dateNow ev) (key_of p identifier) s = None →
  (LeakyBucketRateLimiter.check p identifier ev s).1
  = Fulfilled (leaky_fresh_result p ev).
Proof.
  intros [Hmax HW] Hk.
  unfold LeakyBucketRateLimiter.check, LeakyBucketRateLimiter.eval, mbind, cmd_bind,
    mret, cmd_ret.
  rewrite (leaky_script_absent _ _ _ _ _ _ HW s Hk). cbv zeta.
  set (level1 := Qmax 0 _).
  assert (Hl1 : (level1 == 0)%Q).
  { subst level1. rewrite Z.sub_diag. apply Q.max_l.
    unfold Qminus, Qdiv. change (inject_Z 0) with 0%Q. ring_simplify. apply Qle_refl. }
  assert (Hlt : LeakyBucketRateLimiter.Qltb level1 (inject_Z (maxRequests p)) = true).
  { apply Qltb_lt. rewrite Hl1. change 0%Q with (inject_Z 0). rewrite <- Zlt_Qlt. lia. }
  rewrite Hlt. cbn [fst snd].
  rewrite (lua_number_eq (level1 + 1) 1) by (cbn; first [lia | rewrite Hl1; reflexivity]).
  rewrite Qceiling_Z. reflexivity.
Qed.

Lemma check_absent (a : IRateLimitAlgorithm) (identifier : string) (ev : env)
    (s : store) :
  valid (params_of a) →
  lookup_live (dateNow ev) (key_of (params_of a) identifier) s = None →
  (RateLimiter.check a identifier ev s).1 = Fulfilled (fresh_result a ev).
Proof.
  intros Hp Hk. destruct a as [p|p|p]; cbn [RateLimiter.check fresh_result params_of] in *.
  - destruct Hp as [_ HW]. by rewrite (fixed_check_absent p identifier ev s HW Hk).
  - by apply sliding_check_absent.
  - by apply leaky_check_absent.
Qed.

Lemma fresh_result_first (a : IRateLimitAlgorithm) (ev : env) :
  valid (params_of a) →
  current (fresh_result a ev) = 1 ∧ allowed (fresh_result a ev) = true.
Proof.
  intros [Hmax _]. destruct a as [p|p|p]; cbn in *; split; try done.
  by apply Z.leb_le.
Qed.

(** C8. For each of the three algorithms (positive limit and window), every
    identifier and every store: [reset(id)] followed by [check(id)] returns
    what [check(id)] returns on a store that has no state for the
    identifier, and that result has [current = 1] and [allowed = true]. *)
Theorem reset_then_check_as_never_seen (a : IRateLimitAlgorithm)
    (identifier : string) (ev ev' : env) (s s0 : store) :
  valid (params_of a) →
  s0 !! key_of (params_of a) identifier = None →
  (RateLimiter.check a identifier ev (RateLimiter.reset a identifier ev' s)).1
  = (RateLimiter.check a identifier ev s0).1
  ∧ ∃ r : RateLimitResult,
      (RateLimiter.check a identifier ev (RateLimiter.reset a identifier ev' s)).1
      = Fulfilled r
      ∧ current r = 1 ∧ allowed r = true.
Proof.
  intros Hp Hs0.
  assert (Hreset : lookup_live (dateNow ev) (key_of (params_of a) identifier)
                     (RateLimiter.reset a identifier ev' s) = None).
  { destruct a; apply lookup_live_delete_eq. }
  rewrite (check_absent a identifier ev _ Hp Hreset).
  rewrite (check_absent a identifier ev s0 Hp (lookup_live_absent _ _ _ Hs0)).
  split; [reflexivity|]. eexists. split; [reflexivity|].
  by apply fresh_result_first.
Qed.

(** Reset of the full log of "u2", then a check. *)
Lemma reset_then_check_as_never_seen_witness :
  (RateLimiter.check (SlidingWindow sliding_3_per_5) "u2" (Env 1001000 4)
     (RateLimiter.reset (SlidingWindow sliding_3_per_5) "u2" (Env 1001000 4)
        sliding_full_store)).1
  = (RateLimiter.check (SlidingWindow sliding_3_per_5) "u2" (Env 1001000 4) ∅).1
  ∧ ∃ r : RateLimitResult,
      (RateLimiter.check (SlidingWindow sliding_3_per_5) "u2" (Env 1001000 4)
         (RateLimiter.reset (SlidingWindow sliding_3_per_5) "u2" (Env 1001000 4)
            sliding_full_store)).1
      = Fulfilled r
      ∧ current r = 1 ∧ allowed r = true.
Proof.
  assert (Hp : valid (params_of (SlidingWindow sliding_3_per_5))) by (split; cbn; lia).
  exact (reset_then_check_as_never_seen (SlidingWindow sliding_3_per_5) "u2"
           (Env 1001000 4) (Env 1001000 4) sliding_full_store ∅ Hp eq_refl).
Defined.

(** ** Leaky bucket: level and resetAt *)

Lemma leakRate_pos (p : params) :
  valid p → (0 < LeakyBucketRateLimiter.leakRate p)%Q.
Proof.
  intros [Hmax HW]. unfold LeakyBucketRateLimiter.leakRate.
  apply Qlt_shift_div_l.
  - change 0%Q with (inject_Z 0). rewrite <- Zlt_Qlt. lia.
  - rewrite Qmult_0_l. change 0%Q with (inject_Z 0). rewrite <- Zlt_Qlt. lia.
Qed.

Lemma leaked_nonneg (now last : Z) (rate : Q) :
  last ≤ now → (0 < rate)%Q → (0 <= inject_Z (now - last) / 1000 * rate)%Q.
Proof.
  intros Ht Hr. apply Qmult_le_0_compat; [|by apply Qlt_le_weak].
  apply Qle_shift_div_l; [reflexivity|].
  rewrite Qmult_0_l. change 0%Q with (inject_Z 0). rewrite <- Zle_Qle. lia.
Qed.

(** What the script persists, from a level in [0, limit + 1) that leaks by
    a non-negative amount. *)
Lemma leaky_next_level (max : Z) (level leaked : Q) :
  1 ≤ max →
  (0 <= level)%Q → (level < inject_Z max + 1)%Q → (0 <= leaked)%Q →
  let level1 := Qmax 0 (level - leaked) in
  let level2 := if LeakyBucketRateLimiter.Qltb level1 (inject_Z max)
                then (level1 + 1)%Q else level1 in
  (0 <= level2)%Q ∧ (level2 < inject_Z max + 1)%Q.
Proof.
  intros Hmax Hl0 Hl1 Hk level1 level2.
  assert (0 <= level1)%Q by apply leak_nonneg.
  assert (level1 <= level)%Q by (apply Q.max_lub; lra).
  subst level2.
  destruct (LeakyBucketRateLimiter.Qltb level1 (inject_Z max)) eqn:Hlt.
  - apply Qltb_lt in Hlt. split; lra.
  - split; lra.
Qed.

Lemma leaky_check_level (p : params) (identifier : string) (ev : env) (s : store) :
  valid p →
  bucket_before p (key_of p identifier) (dateNow ev) s →
  ∀ bound, dateNow ev ≤ bound →
    bucket_before p (key_of p identifier) bound
      (LeakyBucketRateLimiter.check p identifier ev s).2
    ∧ (LeakyBucketRateLimiter.check p identifier ev s).2 !! key_of p identifier ≠ None.
Proof.
  intros Hp Hb bound Hbound. pose proof Hp as [Hmax HW].
  pose proof (leakRate_pos p Hp) as Hrate.
  unfold LeakyBucketRateLimiter.check, LeakyBucketRateLimiter.eval, mbind, cmd_bind,
    mret, cmd_ret.
  destruct (lookup_live (dateNow ev) (key_of p identifier) s) as [e|] eqn:Hk.
  - apply lookup_live_Some in Hk as Hk'. destruct Hk' as [Hs _].
    destruct Hb as [Hb | (level & t & x & Hb & Hl0 & Hl1 & Ht)]; [congruence|].
    rewrite Hs in Hb. injection Hb as ->.
    rewrite (leaky_script_bucket _ _ _ _ _ _ HW s level t x Hk). cbv zeta.
    destruct (leaky_next_level (maxRequests p) level _ Hmax Hl0 Hl1
                (leaked_nonneg (dateNow ev) t _ Ht Hrate)) as [H0 H1].
    cbn [fst snd]. split; [|by rewrite lookup_insert_eq].
    right. do 3 eexists. split; [apply lookup_insert_eq|]. by repeat split.
  - rewrite (leaky_script_absent _ _ _ _ _ _ HW s Hk). cbv zeta.
    destruct (leaky_next_level (maxRequests p) 0 _ Hmax ltac:(lra)
                ltac:(change 0%Q with (inject_Z 0); change 1%Q with (inject_Z 1);
                      rewrite <- inject_Z_plus, <- Zlt_Qlt; lia)
                (leaked_nonneg (dateNow ev) (dateNow ev) _ ltac:(lia) Hrate)) as [H0 H1].
    cbn [fst snd]. split; [|by rewrite lookup_insert_eq].
    right. do 3 eexists. split; [apply lookup_insert_eq|]. by repeat split.
Qed.

Lemma leaky_run_level (p : params) (identifier : string) (evs : list env) :
  valid p →
  ∀ s : store,
    clock_monotone evs →
    (∀ ev, head evs = Some ev → bucket_before p (key_of p identifier) (dateNow ev) s) →
    evs ≠ [] →
    ∃ level t x,
      (run_checks (LeakyBucket p) identifier evs s).2 !! key_of p identifier
      = Some (Entry (VBucket level t) x)
      ∧ (0 <= level)%Q ∧ (level < inject_Z (maxRequests p) + 1)%Q.
Proof.
  intros Hp. induction evs as [|ev evs IH]; intros s Hsorted Hb Hne; [done|].
  apply StronglySorted_inv in Hsorted as [Hsorted Hle].
  specialize (Hb ev eq_refl).
  cbn [run_checks RateLimiter.check].
  destruct (LeakyBucketRateLimiter.check p identifier ev s) as [o s1] eqn:Hc.
  destruct evs as [|ev2 evs].
  - cbn [run_checks snd].
    destruct (leaky_check_level p identifier ev s Hp Hb (dateNow ev) ltac:(lia))
      as [[Hnone | (level & t & x & Hk & H0 & H1 & _)] Hsome];
      rewrite Hc in *; cbn [snd] in *; [done|]. eauto 6.
  - apply Forall_cons in Hle as [Hle _].
    destruct (leaky_check_level p identifier ev s Hp Hb (dateNow ev2) Hle) as [Hb1 _].
    rewrite Hc in Hb1. cbn [snd] in Hb1.
    specialize (IH s1 Hsorted ltac:(by intros ? [= <-]) ltac:(done)).
    destruct (run_checks (LeakyBucket p) identifier (ev2 :: evs) s1) as [os s2].
    exact IH.
Qed.

(** X8 (near C3). With a positive limit and window and a clock that does
    not go back, the level persisted after any non-empty run of checks from an
    absent key is at least 0 and at most [limit + 1]: a request is added
    only to a level below the limit, and a level never grows otherwise.
    (The bound is stated with [<=]: in the exact arithmetic of this model the
    level stays below [limit + 1], and the rounding of the script's doubles
    can carry a level just below it up to [limit + 1] itself.) *)
Lemma leaky_level_at_most_limit_plus_one (p : params) (identifier : string)
    (evs : list env) (s : store) :
  valid p →
  s !! key_of p identifier = None →
  clock_monotone evs →
  evs ≠ [] →
  ∃ level : Q,
    stored_level (key_of p identifier)
      (run_checks (LeakyBucket p) identifier evs s).2 = Some level
    ∧ (0 <= level)%Q ∧ (level <= inject_Z (maxRequests p) + 1)%Q.
Proof.
  intros Hp Hs Hsorted Hne.
  destruct (leaky_run_level p identifier evs Hp s Hsorted
              ltac:(by intros; left) Hne) as (level & t & x & Hk & H0 & H1).
  exists level. unfold stored_level. rewrite Hk.
  split; [done|]. split; [done|]. by apply Qlt_le_weak.
Qed.

(** C3 (the code departs from it). With [limit = 5] and [windowSeconds = 10],
    five checks in one millisecond fill the bucket to level 5; one second
    later the level has leaked to 4.5, which is below the limit, so the
    check adds 1 and persists the level 5.5 > limit. *)
Theorem leaky_level_exceeds_limit :
  ∃ level : Q,
    stored_level (key_of leaky_5_per_10 "u3")
      (run_checks (LeakyBucket leaky_5_per_10) "u3" leaky_fill_then_wait ∅).2
    = Some level
    ∧ (level == 11 # 2)%Q
    ∧ (inject_Z (maxRequests leaky_5_per_10) < level)%Q.
Proof.
  eexists. split; [by vm_compute|]. split; by vm_compute.
Qed.







(** ** Keys whose payload cannot be read *)

Lemma sliding_script_wrong_type (clock : Z) (k : string) (now ws max W : Z) (rnd : N)
    (s : store) (e : entry) :
  lookup_live clock k s = Some e →
  (∀ z, val e ≠ VZSet z) →
  SlidingWindowRateLimiter.luaScript clock k now ws max W rnd s = (Err WrongType, s).
Proof.
  intros Hk Hv.
  unfold SlidingWindowRateLimiter.luaScript, mbind, cmd_bind, ZREMRANGEBYSCORE.
  rewrite Hk. destruct (val e) as [| | |z]; try reflexivity. by destruct (Hv z).
Qed.

(** C5 as amended. When the live key holds a payload that the script cannot
    read, the check fails with the store's error and leaves the store as it
    was: the Leaky Bucket when the payload does not decode to a bucket, the
    Sliding Window Log when the key does not hold a sorted set.  The
    fresh-start defaults are not applied. *)
Theorem unreadable_state_rejects (p : params) (identifier : string) (ev : env)
    (s : store) (e : entry) :
  lookup_live (dateNow ev) (key_of p identifier) s = Some e →
  (LeakyBucketRateLimiter.cjson_decode (val e) = None →
   ∃ err, LeakyBucketRateLimiter.check p identifier ev s = (Rejected err, s))
  ∧ ((∀ z, val e ≠ VZSet z) →
     SlidingWindowRateLimiter.check p identifier ev s = (Rejected WrongType, s)).
Proof.
  intros Hk. split.
  - intros Hd.
    destruct (leaky_script_unreadable (dateNow ev) (key_of p identifier) (dateNow ev)
                (maxRequests p) (LeakyBucketRateLimiter.leakRate p) (windowSeconds p)
                s e Hk Hd) as [err Herr].
    exists err.
    unfold LeakyBucketRateLimiter.check, LeakyBucketRateLimiter.eval, mbind, cmd_bind.
    by rewrite Herr.
  - intros Hv. unfold SlidingWindowRateLimiter.check.
    by rewrite (sliding_script_wrong_type _ _ _ _ _ _ _ s e Hk Hv).
Qed.

(** The key of "u3" holding text that is not JSON. *)
Lemma unreadable_state_rejects_witness :
  (LeakyBucketRateLimiter.cjson_decode (VRaw "not json") = None →
   ∃ err, LeakyBucketRateLimiter.check leaky_5_per_10 "u3" (Env 1000000 0)
            leaky_corrupt_store = (Rejected err, leaky_corrupt_store))
  ∧ ((∀ z, VRaw "not json" ≠ VZSet z) →
     SlidingWindowRateLimiter.check leaky_5_per_10 "u3" (Env 1000000 0)
       leaky_corrupt_store = (Rejected WrongType, leaky_corrupt_store)).
Proof.
  exact (unreadable_state_rejects leaky_5_per_10 "u3" (Env 1000000 0)
           leaky_corrupt_store (Entry (VRaw "not json") None) eq_refl).
Defined.

(** C5 as stated fails: on a key holding text that is not JSON the Leaky
    Bucket check is rejected with the script's error, whereas with the key
    absent (level 0, last leak now) it returns an allowed result. *)
Lemma leaky_corrupt_state_is_an_error :
  let ev := Env 1000000 0 in
  (LeakyBucketRateLimiter.check leaky_5_per_10 "u3" ev leaky_corrupt_store).1
  = Rejected ScriptError
  ∧ (LeakyBucketRateLimiter.check leaky_5_per_10 "u3" ev ∅).1
    = Fulfilled (MkResult true 1 5 4 994 0)
  ∧ (LeakyBucketRateLimiter.check leaky_5_per_10 "u3" ev leaky_corrupt_store).1
    ≠ (LeakyBucketRateLimiter.check leaky_5_per_10 "u3" ev ∅).1.
Proof. cbv zeta. split; [by vm_compute|]. split; by vm_compute. Qed.

(** ** Key prefixes *)

(** C6 as amended. Constructed directly without a key prefix, the three
    classes use three different default prefixes, so their keys differ for
    every identifier; the facade constructed without a key prefix passes
    the one prefix "rate_limit:" to whichever class is selected, so the key
    is "rate_limit:" followed by the identifier for every selector. *)
Theorem default_prefixes (L W L' W' : Z) (identifier : string) :
  key_of (FixedWindowRateLimiter.new L W None) identifier
  ≠ key_of (SlidingWindowRateLimiter.new L' W' None) identifier
  ∧ key_of (FixedWindowRateLimiter.new L W None) identifier
    ≠ key_of (LeakyBucketRateLimiter.new L' W' None) identifier
  ∧ key_of (SlidingWindowRateLimiter.new L W None) identifier
    ≠ key_of (LeakyBucketRateLimiter.new L' W' None) identifier
  ∧ ∀ selector : RateLimitAlgorithm,
      key_of (params_of (RateLimiter.new (Config selector L W None))) identifier
      = "rate_limit:" +:+ identifier.
Proof.
  repeat split; try (cbn; discriminate).
  intros []; reflexivity.
Qed.

(** C6 as stated fails: without an explicit prefix the facade derives the
    same key for "u1" under the fixed window and under the sliding window. *)
Lemma facade_default_prefix_shared :
  FIXED_WINDOW ≠ SLIDING_WINDOW
  ∧ key_of (params_of (RateLimiter.new (Config FIXED_WINDOW 10 60 None))) "u1"
    = key_of (params_of (RateLimiter.new (Config SLIDING_WINDOW 10 60 None))) "u1".
Proof. split; [discriminate | reflexivity]. Qed.


(** * Further properties of the code *)

(** ** Commands work on one key *)

Lemma touches_only_ret {A} (key : string) (a : A) : touches_only key (mret a).
Proof. by intros s k _. Qed.

Lemma touches_only_throw {A} (key : string) (e : error) :
  touches_only key (throw (A:=A) e).
Proof. by intros s k _. Qed.

Lemma touches_only_bind {A B} (key : string) (c : cmd A) (f : A → cmd B) :
  touches_only key c → (∀ a, touches_only key (f a)) → touches_only key (c ≫= f).
Proof.
  intros Hc Hf s k Hk. unfold mbind, cmd_bind.
  specialize (Hc s k Hk). destruct (c s) as [[a|e] s1]; cbn in *; [|done].
  by rewrite (Hf a s1 k Hk).
Qed.

Ltac frame_command :=
  intros s k Hk;
  repeat match goal with
         | |- context [lookup_live ?c ?key s] =>
             destruct (lookup_live c key s) as [[[]]|]; cbn
         | |- context [decide ?P] => destruct (decide P); cbn
         | |- context [Z.leb ?a ?b] => destruct (Z.leb a b); cbn
         end;
  rewrite ?lookup_insert_ne, ?lookup_delete_ne by done; reflexivity.

Lemma touches_only_INCR clock key : touches_only key (INCR clock key).
Proof. unfold INCR. frame_command. Qed.
Lemma touches_only_TTL clock key : touches_only key (TTL clock key).
Proof. by intros s k _. Qed.
Lemma touches_only_EXPIRE clock key secs : touches_only key (EXPIRE clock key secs).
Proof. unfold EXPIRE. frame_command. Qed.
Lemma touches_only_DEL clock key : touches_only key (DEL clock key).
Proof. unfold DEL. frame_command. Qed.
Lemma touches_only_GET clock key : touches_only key (GET clock key).
Proof. unfold GET. frame_command. Qed.
Lemma touches_only_SET_EX clock key v secs : touches_only key (SET_EX clock key v secs).
Proof. unfold SET_EX. frame_command. Qed.
Lemma touches_only_ZREMRANGEBYSCORE clock key lo hi :
  touches_only key (ZREMRANGEBYSCORE clock key lo hi).
Proof. unfold ZREMRANGEBYSCORE. frame_command. Qed.
Lemma touches_only_ZCARD clock key : touches_only key (ZCARD clock key).
Proof. unfold ZCARD. frame_command. Qed.
Lemma touches_only_ZADD clock key sc m : touches_only key (ZADD clock key sc m).
Proof. unfold ZADD. frame_command. Qed.
Lemma touches_only_ZRANGE_first clock key : touches_only key (ZRANGE_first clock key).
Proof. unfold ZRANGE_first. frame_command. Qed.

Create HintDb frame discriminated.
#[local] Hint Resolve touches_only_ret touches_only_throw touches_only_INCR
  touches_only_TTL touches_only_EXPIRE touches_only_DEL touches_only_GET
  touches_only_SET_EX touches_only_ZREMRANGEBYSCORE touches_only_ZCARD
  touches_only_ZADD touches_only_ZRANGE_first : frame.

Lemma touches_only_sliding_script clock key now ws max W rnd :
  touches_only key (SlidingWindowRateLimiter.luaScript clock key now ws max W rnd).
Proof.
  unfold SlidingWindowRateLimiter.luaScript.
  apply touches_only_bind; [auto with frame|]. intros _.
  apply touches_only_bind; [auto with frame|]. intros current.
  apply touches_only_bind.
  { destruct (_ <? _); [apply touches_only_bind|]; auto with frame. }
  intros current'. apply touches_only_bind; auto with frame.
Qed.

Lemma touches_only_leaky_script clock key now max rate W :
  touches_only key (LeakyBucketRateLimiter.luaScript clock key now max rate W).
Proof.
  unfold LeakyBucketRateLimiter.luaScript.
  apply touches_only_bind; [auto with frame|]. intros bucket_data.
  apply touches_only_bind.
  { destruct bucket_data as [v|]; [|auto with frame].
    destruct (LeakyBucketRateLimiter.cjson_decode v); auto with frame. }
  intros st. apply touches_only_bind; auto with frame.
Qed.

Lemma reads_only_ret {A} (key : string) (a : A) : reads_only key (mret a).
Proof. by intros s s' H. Qed.

Lemma reads_only_throw {A} (key : string) (e : error) :
  reads_only key (throw (A:=A) e).
Proof. by intros s s' H. Qed.

Lemma reads_only_bind {A B} (key : string) (c : cmd A) (f : A → cmd B) :
  reads_only key c → (∀ a, reads_only key (f a)) → reads_only key (c ≫= f).
Proof.
  intros Hc Hf s s' H. unfold mbind, cmd_bind.
  destruct (Hc s s' H) as [H1 H2].
  destruct (c s) as [[a|e] s1], (c s') as [[a'|e'] s1']; cbn in *;
    try discriminate; simplify_eq; [by apply Hf | done].
Qed.

Ltac local_command :=
  let E := fresh "E" in
  intros s s' H; unfold lookup_live; rewrite <- ?H;
  try match goal with
      | |- context [s !! ?key] => destruct (s !! key) as [[[] ?]|] eqn:E; cbn
      end;
  repeat match goal with
         | |- context [live ?c ?e] => destruct (live c e); cbn
         | |- context [decide ?P] => destruct (decide P); cbn
         | |- context [Z.leb ?a ?b] => destruct (Z.leb a b); cbn
         end;
  cbn; rewrite ?lookup_insert_eq, ?lookup_delete_eq; split; congruence.

Lemma reads_only_INCR clock key : reads_only key (INCR clock key).
Proof. unfold INCR. local_command. Qed.
Lemma reads_only_TTL clock key : reads_only key (TTL clock key).
Proof. unfold TTL. local_command. Qed.
Lemma reads_only_EXPIRE clock key secs : reads_only key (EXPIRE clock key secs).
Proof. unfold EXPIRE. local_command. Qed.
Lemma reads_only_DEL clock key : reads_only key (DEL clock key).
Proof. unfold DEL. local_command. Qed.
Lemma reads_only_GET clock key : reads_only key (GET clock key).
Proof. unfold GET. local_command. Qed.
Lemma reads_only_SET_EX clock key v secs : reads_only key (SET_EX clock key v secs).
Proof. unfold SET_EX. local_command. Qed.
Lemma reads_only_ZREMRANGEBYSCORE clock key lo hi :
  reads_only key (ZREMRANGEBYSCORE clock key lo hi).
Proof. unfold ZREMRANGEBYSCORE. local_command. Qed.
Lemma reads_only_ZCARD clock key : reads_only key (ZCARD clock key).
Proof. unfold ZCARD. local_command. Qed.
Lemma reads_only_ZADD clock key sc m : reads_only key (ZADD clock key sc m).
Proof. unfold ZADD. local_command. Qed.
Lemma reads_only_ZRANGE_first clock key : reads_only key (ZRANGE_first clock key).
Proof. unfold ZRANGE_first. local_command. Qed.

#[local] Hint Resolve reads_only_ret reads_only_throw reads_only_INCR
  reads_only_TTL reads_only_EXPIRE reads_only_DEL reads_only_GET
  reads_only_SET_EX reads_only_ZREMRANGEBYSCORE reads_only_ZCARD
  reads_only_ZADD reads_only_ZRANGE_first : frame.

Lemma reads_only_sliding_script clock key now ws max W rnd :
  reads_only key (SlidingWindowRateLimiter.luaScript clock key now ws max W rnd).
Proof.
  unfold SlidingWindowRateLimiter.luaScript.
  apply reads_only_bind; [auto with frame|]. intros _.
  apply reads_only_bind; [auto with frame|]. intros current.
  apply reads_only_bind.
  { destruct (_ <? _); [apply reads_only_bind|]; auto with frame. }
  intros current'. apply reads_only_bind; auto with frame.
Qed.

Lemma reads_only_leaky_script clock key now max rate W :
  reads_only key (LeakyBucketRateLimiter.luaScript clock key now max rate W).
Proof.
  unfold LeakyBucketRateLimiter.luaScript.
  apply reads_only_bind; [auto with frame|]. intros bucket_data.
  apply reads_only_bind.
  { destruct bucket_data as [v|]; [|auto with frame].
    destruct (LeakyBucketRateLimiter.cjson_decode v); auto with frame. }
  intros st. apply reads_only_bind; auto with frame.
Qed.

(** The pipeline of the fixed window and its EXPIRE, as one command. *)
Lemma fixed_check_as_command (p : params) (identifier : string) (ev : env) :
  let key := key_of p identifier in
  ∃ c : cmd outcome,
    touches_only key c ∧ reads_only key c
    ∧ ∀ s, ∃ o s', FixedWindowRateLimiter.check p identifier ev s = (o, s')
                   ∧ c s = (Ok o, s').
Proof.
  intros key.
  set (now := dateNow ev / 1000).
  set (resetAt := now / windowSeconds p * windowSeconds p + windowSeconds p).
  pose (attempt := λ (c : cmd Z), (λ s, let '(r, s') := c s in (Ok r, s'))
                   : cmd (result Z)).
  exists (incrResult ← attempt (INCR (dateNow ev) key);
          ttl ← TTL (dateNow ev) key;
          _ ← (if (ttl =? -1) || (ttl =? -2)
               then EXPIRE (dateNow ev) key (resetAt - now)
               else mret 0);
          mret match incrResult with
               | Ok current =>
                   Fulfilled (MkResult (current <=? maxRequests p) current
                                (maxRequests p) (Z.max 0 (maxRequests p - current))
                                resetAt
                                (if current <=? maxRequests p then 0 else resetAt - now))
               | Err _ => FulfilledUndefined (maxRequests p) resetAt (resetAt - now)
               end).
  assert (Ht : touches_only key (attempt (INCR (dateNow ev) key))).
  { intros s k Hk. pose proof (touches_only_INCR (dateNow ev) key s k Hk).
    unfold attempt. by destruct (INCR _ _ s). }
  assert (Hr : reads_only key (attempt (INCR (dateNow ev) key))).
  { intros s s' H. pose proof (reads_only_INCR (dateNow ev) key s s' H) as [H1 H2].
    unfold attempt. destruct (INCR _ _ s), (INCR _ _ s'). cbn in *. by subst. }
  split; [|split].
  - apply touches_only_bind; [done|]. intros r.
    apply touches_only_bind; [auto with frame|]. intros ttl.
    apply touches_only_bind; [destruct (_ || _); auto with frame|]. auto with frame.
  - apply reads_only_bind; [done|]. intros r.
    apply reads_only_bind; [auto with frame|]. intros ttl.
    apply reads_only_bind; [destruct (_ || _); auto with frame|]. auto with frame.
  - intros s. unfold FixedWindowRateLimiter.check, mbind, cmd_bind, mret, cmd_ret, attempt.
    fold key now resetAt.
    destruct (INCR (dateNow ev) key s) as [incr s1].
    unfold TTL. cbn -[EXPIRE Z.div Z.mul Z.add Z.sub Z.eqb].
    destruct (_ || _).
    + destruct (EXPIRE _ _ _ s1) as [[x|e] s3] eqn:He.
      * destruct incr; do 2 eexists; split; reflexivity.
      * unfold EXPIRE in He. destruct (lookup_live _ _ s1); [destruct (_ <=? _)|];
          discriminate.
    + destruct incr; do 2 eexists; split; reflexivity.
Qed.

(** ** A check works on the key of its identifier *)

Lemma key_of_inj (p : params) (identifier identifier' : string) :
  key_of p identifier = key_of p identifier' → identifier = identifier'.
Proof. unfold key_of. apply String.app_inj. Qed.

Lemma check_frame (a : IRateLimitAlgorithm) (identifier : string) (ev : env)
    (s : store) (k : string) :
  k ≠ key_of (params_of a) identifier →
  (RateLimiter.check a identifier ev s).2 !! k = s !! k.
Proof.
  intros Hk. destruct a as [p|p|p]; cbn [RateLimiter.check params_of] in *.
  - destruct (fixed_check_as_command p identifier ev) as (c & Ht & _ & Hc).
    destruct (Hc s) as (o & s' & -> & Hcs). specialize (Ht s k Hk).
    by rewrite Hcs in Ht.
  - unfold SlidingWindowRateLimiter.check, SlidingWindowRateLimiter.getOldestTimestamp.
    pose proof (touches_only_sliding_script (dateNow ev) (key_of p identifier)
                  (dateNow ev) (dateNow ev - windowSeconds p * 1000) (maxRequests p)
                  (windowSeconds p) (random ev) s k Hk) as H1.
    destruct (SlidingWindowRateLimiter.luaScript _ _ _ _ _ _ _ s) as [[c|e] s1];
      cbn in *; [|done].
    pose proof (touches_only_ZRANGE_first (dateNow ev) (key_of p identifier) s1 k Hk) as H2.
    destruct (ZRANGE_first _ _ s1) as [[o|e] s2]; cbn in *; congruence.
  - unfold LeakyBucketRateLimiter.check, LeakyBucketRateLimiter.eval.
    pose proof (touches_only_bind _ _
                  (λ r : Z * Q, mret (r.1, LeakyBucketRateLimiter.lua_number_to_integer r.2))
                  (touches_only_leaky_script (dateNow ev) (key_of p identifier)
                     (dateNow ev) (maxRequests p) (LeakyBucketRateLimiter.leakRate p)
                     (windowSeconds p))
                  (λ r, touches_only_ret _ _) s k Hk) as H1.
    match type of H1 with
    | (?t).2 !! _ = _ => destruct t as [[[an lv]|e] s1]
    end; cbn in *; done.
Qed.

Lemma check_local (a : IRateLimitAlgorithm) (identifier : string) (ev : env)
    (s s' : store) :
  s !! key_of (params_of a) identifier = s' !! key_of (params_of a) identifier →
  (RateLimiter.check a identifier ev s).1 = (RateLimiter.check a identifier ev s').1.
Proof.
  intros H. destruct a as [p|p|p]; cbn [RateLimiter.check params_of] in *.
  - destruct (fixed_check_as_command p identifier ev) as (c & _ & Hr & Hc).
    destruct (Hc s) as (o & s1 & -> & Hcs). destruct (Hc s') as (o' & s1' & -> & Hcs').
    destruct (Hr s s' H) as [H1 _]. rewrite Hcs, Hcs' in H1. cbn in *. congruence.
  - unfold SlidingWindowRateLimiter.check, SlidingWindowRateLimiter.getOldestTimestamp.
    destruct (reads_only_sliding_script (dateNow ev) (key_of p identifier)
                (dateNow ev) (dateNow ev - windowSeconds p * 1000) (maxRequests p)
                (windowSeconds p) (random ev) s s' H) as [H1 H2].
    destruct (SlidingWindowRateLimiter.luaScript _ _ _ _ _ _ _ s) as [[c|e] s1],
      (SlidingWindowRateLimiter.luaScript _ _ _ _ _ _ _ s') as [[c'|e'] s1'];
      cbn in *; simplify_eq; [|done].
    destruct (reads_only_ZRANGE_first (dateNow ev) (key_of p identifier) s1 s1' H2)
      as [H3 _].
    destruct (ZRANGE_first _ _ s1) as [[o|e] s2], (ZRANGE_first _ _ s1') as [[o'|e'] s2'];
      cbn in *; by simplify_eq.
  - unfold LeakyBucketRateLimiter.check, LeakyBucketRateLimiter.eval.
    destruct (reads_only_bind _ _
                (λ r : Z * Q, mret (r.1, LeakyBucketRateLimiter.lua_number_to_integer r.2))
                (reads_only_leaky_script (dateNow ev) (key_of p identifier)
                   (dateNow ev) (maxRequests p) (LeakyBucketRateLimiter.leakRate p)
                   (windowSeconds p))
                (λ r, reads_only_ret _ _) s s' H) as [H1 _].
    match type of H1 with
    | (?t).1 = (?t').1 =>
        destruct t as [[[an lv]|e] s1], t' as [[[an' lv']|e'] s1']
    end; cbn in *; by simplify_eq.
Qed.

(** X1. Two identifiers never contend: under one limiter a check or a reset
    of one identifier leaves what is stored for another identifier as it
    was, and does not change what the next check of that other identifier
    returns. *)
Theorem identifiers_independent (a : IRateLimitAlgorithm)
    (identifier identifier' : string) (ev ev' : env) (s : store) :
  identifier ≠ identifier' →
  let k' := key_of (params_of a) identifier' in
  (RateLimiter.check a identifier ev s).2 !! k' = s !! k'
  ∧ RateLimiter.reset a identifier ev s !! k' = s !! k'
  ∧ (RateLimiter.check a identifier' ev' (RateLimiter.check a identifier ev s).2).1
    = (RateLimiter.check a identifier' ev' s).1
  ∧ (RateLimiter.check a identifier' ev' (RateLimiter.reset a identifier ev s)).1
    = (RateLimiter.check a identifier' ev' s).1.
Proof.
  intros Hne k'.
  assert (Hk : k' ≠ key_of (params_of a) identifier).
  { intros Heq. apply Hne. symmetry. by apply (key_of_inj (params_of a)). }
  assert (Hreset : RateLimiter.reset a identifier ev s !! k' = s !! k').
  { destruct a; cbn; by apply lookup_delete_ne. }
  pose proof (check_frame a identifier ev s k' Hk) as Hcheck.
  repeat split; [done | done | by apply check_local | by apply check_local].
Qed.

(** The identifiers "u1" and "u2" under a fixed window of 10 per minute. *)
Lemma identifiers_independent_witness :
  let a := FixedWindow (Params 10 60 "rate_limit:") in
  let k' := key_of (params_of a) "u2" in
  (RateLimiter.check a "u1" (Env 0 0) ∅).2 !! k' = (∅ : store) !! k'
  ∧ RateLimiter.reset a "u1" (Env 0 0) ∅ !! k' = (∅ : store) !! k'
  ∧ (RateLimiter.check a "u2" (Env 1 0) (RateLimiter.check a "u1" (Env 0 0) ∅).2).1
    = (RateLimiter.check a "u2" (Env 1 0) ∅).1
  ∧ (RateLimiter.check a "u2" (Env 1 0) (RateLimiter.reset a "u1" (Env 0 0) ∅)).1
    = (RateLimiter.check a "u2" (Env 1 0) ∅).1.
Proof.
  assert (Hne : "u1" ≠ "u2") by discriminate.
  exact (identifiers_independent (FixedWindow (Params 10 60 "rate_limit:"))
           "u1" "u2" (Env 0 0) (Env 1 0) ∅ Hne).
Defined.

(** ** Fixed window: the end of a window *)

Lemma fixed_run_store_counted (p : params) (identifier : string) (w : Z)
    (evs : list env) :
  ∀ (s : store) (n exp : Z),
    s !! key_of p identifier = Some (Entry (VInt n) (Some exp)) →
    (w + 1) * windowSeconds p * 1000 ≤ exp →
    1 ≤ windowSeconds p →
    Forall (in_window p w) evs →
    (run_checks (FixedWindow p) identifier evs s).2 !! key_of p identifier
    = Some (Entry (VInt (n + Z.of_nat (length evs))) (Some exp)).
Proof.
  induction evs as [|ev evs IH]; intros s n exp Hs Hexp HW Hall.
  { cbn. rewrite Hs. do 3 f_equal. lia. }
  apply Forall_cons in Hall as [Hev Hall].
  pose proof (window_clock_before_reset _ _ _ HW Hev) as Hlt.
  cbn [run_checks RateLimiter.check].
  rewrite (fixed_check_counted p identifier ev s n exp Hs) by lia.
  specialize (IH (<[key_of p identifier := Entry (VInt (n + 1)) (Some exp)]> s)
                (n + 1) exp (lookup_insert_eq _ _ _) Hexp HW Hall).
  destruct (run_checks _ _ evs _) as [os s2]. cbn in IH |- *. rewrite IH.
  do 3 f_equal. lia.
Qed.

Lemma fixed_run_store_absent (p : params) (identifier : string) (w : Z)
    (ev : env) (evs : list env) (s : store) :
  s !! key_of p identifier = None →
  1 ≤ windowSeconds p →
  Forall (in_window p w) (ev :: evs) →
  (run_checks (FixedWindow p) identifier (ev :: evs) s).2 !! key_of p identifier
  = Some (Entry (VInt (1 + Z.of_nat (length evs)))
            (Some (dateNow ev
                   + (dateNow ev / 1000 / windowSeconds p * windowSeconds p
                      + windowSeconds p - dateNow ev / 1000) * 1000))).
Proof.
  intros Hs HW Hall. apply Forall_cons in Hall as [Hev Hall].
  cbn [run_checks RateLimiter.check].
  rewrite fixed_check_absent; [|done|by apply lookup_live_absent].
  match goal with
  | |- context [run_checks _ _ evs ?s1] =>
      pose proof (fixed_run_store_counted p identifier w evs s1 1 _
                    (lookup_insert_eq _ _ _)
                    (window_expiry_after_reset _ _ _ HW Hev) HW Hall) as IH
  end.
  destruct (run_checks _ _ evs _) as [os s2]. exact IH.
Qed.

(** X2. Fixed Window Counter: after any run of checks inside one window
    from an absent key, a check made at least one second after the end of
    that window finds the counter expired and starts again at
    [current = 1], allowed. *)
Theorem fixed_window_restarts_after_expiry (p : params) (identifier : string)
    (w : Z) (evs : list env) (ev' : env) (s : store) :
  valid p →
  s !! key_of p identifier = None →
  Forall (in_window p w) evs →
  (w + 1) * windowSeconds p * 1000 + 1000 ≤ dateNow ev' →
  ∃ r : RateLimitResult,
    (FixedWindowRateLimiter.check p identifier ev'
       (run_checks (FixedWindow p) identifier evs s).2).1 = Fulfilled r
    ∧ current r = 1 ∧ allowed r = true
    ∧ remaining r = maxRequests p - 1.
Proof.
  intros [Hmax HW] Hs Hall Hlate.
  assert (Hgone : lookup_live (dateNow ev') (key_of p identifier)
                    (run_checks (FixedWindow p) identifier evs s).2 = None).
  { destruct evs as [|ev evs]; [by apply lookup_live_absent|].
    unfold lookup_live.
    rewrite (fixed_run_store_absent p identifier w ev evs s Hs HW Hall).
    apply Forall_cons in Hall as [Hev _]. unfold in_window in Hev.
    cbn [live expireAt].
    pose proof (Z.mod_pos_bound (dateNow ev) 1000 ltac:(lia)).
    pose proof (Z.div_mod (dateNow ev) 1000 ltac:(lia)).
    rewrite Hev.
    destruct (Z.leb_spec (dateNow ev')
                (dateNow ev + (w * windowSeconds p + windowSeconds p
                               - dateNow ev / 1000) * 1000)); [lia | done]. }
  rewrite (fixed_check_absent p identifier ev' _ HW Hgone).
  eexists. split; [reflexivity|]. unfold fixed_result. cbn.
  destruct (Z.leb_spec 1 (maxRequests p)); [|lia]. repeat split; lia.
Qed.

(** Ten checks at [t = 0], then one at [t = 61 s], limit 10 per minute. *)
Lemma fixed_window_restarts_after_expiry_witness :
  ∃ r : RateLimitResult,
    (FixedWindowRateLimiter.check (Params 10 60 "rate_limit:") "u1" (Env 61000 0)
       (run_checks (FixedWindow (Params 10 60 "rate_limit:")) "u1"
          (replicate 10 (Env 0 0)) ∅).2).1 = Fulfilled r
    ∧ current r = 1 ∧ allowed r = true
    ∧ remaining r = 10 - 1.
Proof.
  assert (Hp : valid (Params 10 60 "rate_limit:")) by (split; cbn; lia).
  assert (Hall : Forall (in_window (Params 10 60 "rate_limit:") 0)
                   (replicate 10 (Env 0 0))) by repeat constructor.
  assert (Hlate : (0 + 1) * windowSeconds (Params 10 60 "rate_limit:") * 1000 + 1000
                  ≤ dateNow (Env 61000 0)) by (cbn; lia).
  exact (fixed_window_restarts_after_expiry (Params 10 60 "rate_limit:") "u1" 0
           (replicate 10 (Env 0 0)) (Env 61000 0) ∅ Hp eq_refl Hall Hlate).
Defined.

(** X3. Fixed Window Counter: the counter created by a first check at
    millisecond [t0] of window [w] expires [resetAt - floor(t0/1000)]
    seconds after [t0], that is up to 999 ms after the window ends; a check
    that falls in window [w + 1] before that moment is still counted on
    top of the old counter ([current = 2]), while its [resetAt] is the end
    of window [w + 1]. *)
Theorem fixed_window_counter_outlives_window (p : params) (identifier : string)
    (w : Z) (ev0 ev1 : env) (s : store) :
  1 ≤ windowSeconds p →
  s !! key_of p identifier = None →
  in_window p w ev0 →
  (w + 1) * windowSeconds p * 1000 ≤ dateNow ev1 →
  dateNow ev1 < dateNow ev0 + ((w + 1) * windowSeconds p - dateNow ev0 / 1000) * 1000 →
  ∃ r : RateLimitResult,
    (FixedWindowRateLimiter.check p identifier ev1
       (FixedWindowRateLimiter.check p identifier ev0 s).2).1 = Fulfilled r
    ∧ in_window p (w + 1) ev1
    ∧ current r = 2
    ∧ resetAt r = (w + 2) * windowSeconds p.
Proof.
  intros HW Hs Hev0 Hge Hlt. unfold in_window in *.
  rewrite (fixed_check_absent p identifier ev0 s HW (lookup_live_absent _ _ _ Hs)).
  cbn [snd]. rewrite Hev0.
  assert (Hw1 : dateNow ev1 / 1000 / windowSeconds p = w + 1).
  { pose proof (Z.mod_pos_bound (dateNow ev0) 1000 ltac:(lia)).
    pose proof (Z.div_mod (dateNow ev0) 1000 ltac:(lia)).
    assert (dateNow ev1 / 1000 = (w + 1) * windowSeconds p) as ->.
    { symmetry. apply Z.div_unique with (r := dateNow ev1 - (w + 1) * windowSeconds p * 1000);
        lia. }
    apply Z.div_mul. lia. }
  erewrite fixed_check_counted; [|apply lookup_insert_eq|lia].
  eexists. split; [reflexivity|]. rewrite Hw1. unfold fixed_result. cbn.
  repeat split; lia.
Qed.

(** First check at 59.999 s, second at 60.5 s, windows of 60 seconds. *)
Lemma fixed_window_counter_outlives_window_witness :
  ∃ r : RateLimitResult,
    (FixedWindowRateLimiter.check (Params 10 60 "rate_limit:") "u1" (Env 60500 0)
       (FixedWindowRateLimiter.check (Params 10 60 "rate_limit:") "u1"
          (Env 59999 0) ∅).2).1 = Fulfilled r
    ∧ in_window (Params 10 60 "rate_limit:") (0 + 1) (Env 60500 0)
    ∧ current r = 2
    ∧ resetAt r = (0 + 2) * 60.
Proof.
  assert (HW : 1 ≤ windowSeconds (Params 10 60 "rate_limit:")) by (cbn; lia).
  assert (Hge : (0 + 1) * windowSeconds (Params 10 60 "rate_limit:") * 1000
                ≤ dateNow (Env 60500 0)) by (cbn; lia).
  assert (Hlt : dateNow (Env 60500 0)
                < dateNow (Env 59999 0)
                  + ((0 + 1) * windowSeconds (Params 10 60 "rate_limit:")
                     - dateNow (Env 59999 0) / 1000) * 1000) by reflexivity.
  exact (fixed_window_counter_outlives_window (Params 10 60 "rate_limit:") "u1" 0
           (Env 59999 0) (Env 60500 0) ∅ HW eq_refl eq_refl Hge Hlt).
Defined.


(** ** Sliding window: what a check does to the log *)

Lemma zset_min_score_elem (z : gmap member Z) (t : Z) :
  zset_min_score z = Some t → ∃ m, z !! m = Some t.
Proof.
  unfold zset_min_score. revert t.
  apply (map_fold_weak_ind (λ acc z, ∀ t, acc = Some t → ∃ m, z !! m = Some t)).
  { done. }
  intros i x m r Hi IH t [= <-]. destruct r as [a|].
  - destruct (Z.min_spec x a) as [[_ ->]|[_ ->]].
    + exists i. apply lookup_insert_eq.
    + destruct (IH a eq_refl) as [m0 Hm0]. exists m0.
      rewrite lookup_insert_ne; [done|]. intros ->. congruence.
  - exists i. apply lookup_insert_eq.
Qed.

Lemma zset_min_score_nonempty (z : gmap member Z) :
  z ≠ ∅ → is_Some (zset_min_score z).
Proof.
  unfold zset_min_score.
  apply (map_fold_weak_ind (λ acc z, z ≠ ∅ → is_Some acc)); [done|].
  intros i x m r _ _ _. eauto.
Qed.

(** One check, in terms of the log it finds. *)
Lemma sliding_check_on_log (p : params) (identifier : string) (ev : env) (s : store) :
  valid p →
  holds_log (key_of p identifier) s →
  let now := dateNow ev in
  let z1 := filter (outside 0 (now - windowSeconds p * 1000))
              (live_log now (key_of p identifier) s) in
  let room := Z.of_nat (size z1) <? maxRequests p in
  let z2 := if room then <[(now, random ev) := now]> z1 else z1 in
  let fallback := ceil_div now 1000 + windowSeconds p in
  let count := if room then Z.of_nat (size z1) + 1 else Z.of_nat (size z1) in
  let reset := match zset_min_score z2 with
               | Some t => if t =? 0 then fallback
                           else ceil_div (t + windowSeconds p * 1000) 1000
               | None => fallback
               end in
  SlidingWindowRateLimiter.check p identifier ev s
  = (Fulfilled (MkResult (count <=? maxRequests p) count (maxRequests p)
                  (Z.max 0 (maxRequests p - count)) reset
                  (if count <=? maxRequests p then 0
                   else Z.max 0 (reset - now / 1000))),
     <[key_of p identifier := Entry (VZSet z2) (Some (now + windowSeconds p * 1000))]> s)
  ∧ z2 ≠ ∅.
Proof.
  intros [Hmax HW] Hlog. cbv zeta.
  unfold live_log, SlidingWindowRateLimiter.check,
    SlidingWindowRateLimiter.getOldestTimestamp, ZRANGE_first.
  destruct (lookup_live (dateNow ev) (key_of p identifier) s) as [e|] eqn:Hk.
  - apply lookup_live_Some in Hk as Hk'. destruct Hk' as [Hs _].
    destruct (Hlog _ Hs) as (z & Hz). destruct e as [v x]. cbn in Hz. subst v.
    rewrite (sliding_script_zset _ _ _ _ _ _ _ HW Hmax s z x Hk). cbn zeta.
    set (z1 := filter _ z).
    destruct (Z.ltb_spec (Z.of_nat (size z1)) (maxRequests p)) as [Hlt|Hge];
      rewrite lookup_live_insert_eq, live_fresh_expiry by done; cbn [val];
      (split; [reflexivity|]).
    + apply insert_non_empty.
    + intros Hz1. rewrite Hz1, map_size_empty in Hge. cbn in Hge. lia.
  - rewrite (sliding_script_absent _ _ _ _ _ _ _ HW Hmax s Hk).
    rewrite map_filter_empty, map_size_empty. change (Z.of_nat 0) with 0.
    destruct (Z.ltb_spec 0 (maxRequests p)); [|lia].
    rewrite lookup_live_insert_eq, live_fresh_expiry by done. cbn [val].
    rewrite insert_empty.
    split; [reflexivity|]. apply map_non_empty_singleton.
Qed.

Lemma stored_log_insert (k : string) (z : gmap member Z) (x : option Z) (s : store) :
  stored_log k (<[k := Entry (VZSet z) x]> s) = Some z.
Proof. unfold stored_log. by rewrite lookup_insert_eq. Qed.

(** X4. Sliding Window Log: after a check at [now] the log stored for the
    identifier is not empty and holds no score in
    [0, now - windowSeconds * 1000]; an entry exactly [windowSeconds]
    seconds old is removed. *)
Theorem sliding_log_holds_window_only (p : params) (identifier : string) (ev : env)
    (s : store) :
  valid p →
  holds_log (key_of p identifier) s →
  ∃ z' : gmap member Z,
    stored_log (key_of p identifier)
      (SlidingWindowRateLimiter.check p identifier ev s).2 = Some z'
    ∧ z' ≠ ∅
    ∧ ∀ (m : member) (sc : Z),
        z' !! m = Some sc →
        ¬ (0 ≤ sc ≤ dateNow ev - windowSeconds p * 1000).
Proof.
  intros Hp Hlog. pose proof Hp as [Hmax HW].
  destruct (sliding_check_on_log p identifier ev s Hp Hlog) as [Hc Hne].
  cbv zeta in Hc, Hne. rewrite Hc. cbn [snd]. rewrite stored_log_insert.
  eexists. split; [reflexivity|]. split; [done|].
  intros m sc Hm.
  assert (Hfilter : ∀ m sc,
            filter (outside 0 (dateNow ev - windowSeconds p * 1000))
              (live_log (dateNow ev) (key_of p identifier) s) !! m = Some sc →
            ¬ (0 ≤ sc ≤ dateNow ev - windowSeconds p * 1000)).
  { intros m0 sc0 H0. apply map_lookup_filter_Some in H0 as [_ Hout].
    unfold outside in Hout. cbn in Hout. lia. }
  destruct (_ <? _).
  - destruct (decide (m = (dateNow ev, random ev))) as [->|Hneq].
    + rewrite lookup_insert_eq in Hm. injection Hm as <-. lia.
    + rewrite lookup_insert_ne in Hm by done. by apply (Hfilter m).
  - by apply (Hfilter m).
Qed.

(** The log of "u2" after three checks, checked again a second later. *)
Lemma sliding_log_holds_window_only_witness :
  ∃ z' : gmap member Z,
    stored_log (key_of sliding_3_per_5 "u2")
      (SlidingWindowRateLimiter.check sliding_3_per_5 "u2" (Env 1001000 4)
         sliding_full_store).2 = Some z'
    ∧ z' ≠ ∅
    ∧ ∀ (m : member) (sc : Z),
        z' !! m = Some sc → ¬ (0 ≤ sc ≤ 1001000 - 5 * 1000).
Proof.
  assert (Hp : valid sliding_3_per_5) by (split; cbn; lia).
  assert (Hlog : holds_log (key_of sliding_3_per_5 "u2") sliding_full_store).
  { intros e He. vm_compute in He. injection He as <-. eexists. reflexivity. }
  exact (sliding_log_holds_window_only sliding_3_per_5 "u2" (Env 1001000 4)
           sliding_full_store Hp Hlog).
Defined.

(** X5. Sliding Window Log: a check adds an entry exactly when the pruned
    log has room.  With room and a fresh member the stored log grows by one
    and [current] is its new size; with room and a member that is already
    there (same millisecond, same random draw) the stored log keeps its
    size while [current] still counts one more; without room the stored log
    is the pruned log and [current] is its size. *)
Theorem sliding_log_growth (p : params) (identifier : string) (ev : env) (s : store) :
  valid p →
  holds_log (key_of p identifier) s →
  let z1 := filter (outside 0 (dateNow ev - windowSeconds p * 1000))
              (live_log (dateNow ev) (key_of p identifier) s) in
  let n := Z.of_nat (size z1) in
  ∃ (r : RateLimitResult) (z' : gmap member Z),
    (SlidingWindowRateLimiter.check p identifier ev s).1 = Fulfilled r
    ∧ stored_log (key_of p identifier)
        (SlidingWindowRateLimiter.check p identifier ev s).2 = Some z'
    ∧ (n < maxRequests p → z1 !! (dateNow ev, random ev) = None →
       Z.of_nat (size z') = n + 1 ∧ current r = n + 1)
    ∧ (n < maxRequests p → is_Some (z1 !! (dateNow ev, random ev)) →
       Z.of_nat (size z') = n ∧ current r = n + 1)
    ∧ (maxRequests p ≤ n → z' = z1 ∧ current r = n).
Proof.
  intros Hp Hlog z1 n.
  destruct (sliding_check_on_log p identifier ev s Hp Hlog) as [Hc _].
  cbv zeta in Hc. rewrite Hc. cbn [fst snd]. rewrite stored_log_insert.
  fold z1. fold n.
  do 2 eexists. split; [reflexivity|]. split; [reflexivity|].
  cbn [current]. destruct (Z.ltb_spec n (maxRequests p)).
  - repeat split; try lia.
    + rewrite map_size_insert_None by done. subst n. lia.
    + rewrite map_size_insert_Some by done. done.
  - repeat split; try lia; done.
Qed.

(** A fourth check of "u2" on the full log. *)
Lemma sliding_log_growth_witness :
  let z1 := filter (outside 0 (1001000 - 5 * 1000))
              (live_log 1001000 (key_of sliding_3_per_5 "u2") sliding_full_store) in
  let n := Z.of_nat (size z1) in
  ∃ (r : RateLimitResult) (z' : gmap member Z),
    (SlidingWindowRateLimiter.check sliding_3_per_5 "u2" (Env 1001000 4)
       sliding_full_store).1 = Fulfilled r
    ∧ stored_log (key_of sliding_3_per_5 "u2")
        (SlidingWindowRateLimiter.check sliding_3_per_5 "u2" (Env 1001000 4)
           sliding_full_store).2 = Some z'
    ∧ (n < 3 → z1 !! (1001000, 4%N) = None →
       Z.of_nat (size z') = n + 1 ∧ current r = n + 1)
    ∧ (n < 3 → is_Some (z1 !! (1001000, 4%N)) →
       Z.of_nat (size z') = n ∧ current r = n + 1)
    ∧ (3 ≤ n → z' = z1 ∧ current r = n).
Proof.
  assert (Hp : valid sliding_3_per_5) by (split; cbn; lia).
  assert (Hlog : holds_log (key_of sliding_3_per_5 "u2") sliding_full_store).
  { intros e He. vm_compute in He. injection He as <-. eexists. reflexivity. }
  exact (sliding_log_growth sliding_3_per_5 "u2" (Env 1001000 4)
           sliding_full_store Hp Hlog).
Defined.

Lemma ceil_div_above (a b : Z) : a ≤ b * 1000 → ceil_div a 1000 ≤ b.
Proof.
  unfold ceil_div. intros H.
  pose proof (Z.mod_pos_bound (- a) 1000 ltac:(lia)).
  pose proof (Z.div_mod (- a) 1000 ltac:(lia)). lia.
Qed.

Lemma ceil_div_ge (a : Z) : a ≤ ceil_div a 1000 * 1000 < a + 1000.
Proof.
  unfold ceil_div.
  pose proof (Z.mod_pos_bound (- a) 1000 ltac:(lia)).
  pose proof (Z.div_mod (- a) 1000 ltac:(lia)). lia.
Qed.

Lemma floor_div_le (a : Z) : a / 1000 * 1000 ≤ a.
Proof.
  pose proof (Z.mod_pos_bound a 1000 ltac:(lia)).
  pose proof (Z.div_mod a 1000 ltac:(lia)). lia.
Qed.

(** X6. Sliding Window Log: when the scores found under the key lie between
    0 and [now] (no timestamp from the future), the [resetAt] of a check is
    later than the second of the call and at most [windowSeconds] after its
    second rounded up. *)
Theorem sliding_resetAt_bounds (p : params) (identifier : string) (ev : env)
    (s : store) :
  valid p →
  holds_log (key_of p identifier) s →
  scores_within 0 (dateNow ev) (live_log (dateNow ev) (key_of p identifier) s) →
  ∃ r : RateLimitResult,
    (SlidingWindowRateLimiter.check p identifier ev s).1 = Fulfilled r
    ∧ dateNow ev / 1000 < resetAt r
    ∧ resetAt r ≤ ceil_div (dateNow ev) 1000 + windowSeconds p.
Proof.
  intros Hp Hlog Hscores. pose proof Hp as [Hmax HW].
  destruct (sliding_check_on_log p identifier ev s Hp Hlog) as [Hc Hne].
  cbv zeta in Hc, Hne. rewrite Hc. cbn [fst].
  eexists. split; [reflexivity|]. cbn [resetAt].
  pose proof (ceil_div_ge (dateNow ev)) as Hceil.
  pose proof (floor_div_le (dateNow ev)) as Hfloor.
  set (z1 := filter _ _) in *.
  set (z2 := if _ <? _ then _ else z1) in *.
  assert (Hz2 : ∀ m sc, z2 !! m = Some sc →
                        dateNow ev - windowSeconds p * 1000 < sc ≤ dateNow ev).
  { assert (Hz1 : ∀ m sc, z1 !! m = Some sc →
                          dateNow ev - windowSeconds p * 1000 < sc ≤ dateNow ev).
    { intros m sc H1. apply map_lookup_filter_Some in H1 as [Hin Hout].
      specialize (Hscores m sc Hin). unfold outside in Hout. cbn in *. lia. }
    intros m sc Hm. subst z2. destruct (_ <? _); [|by apply (Hz1 m)].
    destruct (decide (m = (dateNow ev, random ev))) as [->|Hneq].
    - rewrite lookup_insert_eq in Hm. injection Hm as <-. lia.
    - rewrite lookup_insert_ne in Hm by done. by apply (Hz1 m). }
  destruct (zset_min_score z2) as [t|] eqn:Hmin; [|lia].
  destruct (zset_min_score_elem z2 t Hmin) as [m Hm].
  specialize (Hz2 m t Hm).
  destruct (Z.eqb_spec t 0); [lia|].
  pose proof (ceil_div_ge (t + windowSeconds p * 1000)).
  split; [lia|]. apply ceil_div_above. lia.
Qed.

(** The full log of "u2", checked a second later. *)
Lemma sliding_resetAt_bounds_witness :
  ∃ r : RateLimitResult,
    (SlidingWindowRateLimiter.check sliding_3_per_5 "u2" (Env 1001000 4)
       sliding_full_store).1 = Fulfilled r
    ∧ 1001000 / 1000 < resetAt r
    ∧ resetAt r ≤ ceil_div 1001000 1000 + 5.
Proof.
  assert (Hp : valid sliding_3_per_5) by (split; cbn; lia).
  assert (Hlog : holds_log (key_of sliding_3_per_5 "u2") sliding_full_store).
  { intros e He. vm_compute in He. injection He as <-. eexists. reflexivity. }
  assert (Hscores : scores_within 0 (dateNow (Env 1001000 4))
            (live_log (dateNow (Env 1001000 4)) (key_of sliding_3_per_5 "u2")
               sliding_full_store)).
  { unfold scores_within. apply (bool_decide_unpack _). by vm_compute. }
  exact (sliding_resetAt_bounds sliding_3_per_5 "u2" (Env 1001000 4)
           sliding_full_store Hp Hlog Hscores).
Defined.

(** X7. Sliding Window Log: when every entry stored for the identifier is
    at least [windowSeconds] old (scores between 0 and
    [now - windowSeconds * 1000]), the check behaves as for an identifier
    never seen, whether or not the key has expired in between: it returns
    [current = 1], allowed, and the stored log is the one new entry. *)
Theorem sliding_silence_restarts (p : params) (identifier : string) (ev : env)
    (s : store) (z : gmap member Z) (x : option Z) :
  valid p →
  s !! key_of p identifier = Some (Entry (VZSet z) x) →
  scores_within 0 (dateNow ev - windowSeconds p * 1000) z →
  (SlidingWindowRateLimiter.check p identifier ev s).1
  = Fulfilled (sliding_fresh_result p ev)
  ∧ stored_log (key_of p identifier)
      (SlidingWindowRateLimiter.check p identifier ev s).2
    = Some {[ (dateNow ev, random ev) := dateNow ev ]}.
Proof.
  intros Hp Hs Hscores. pose proof Hp as [Hmax HW].
  assert (Hlog : holds_log (key_of p identifier) s).
  { intros e He. rewrite Hs in He. injection He as <-. by eexists. }
  destruct (sliding_check_on_log p identifier ev s Hp Hlog) as [Hc _].
  cbv zeta in Hc.
  assert (Hz1 : filter (outside 0 (dateNow ev - windowSeconds p * 1000))
                  (live_log (dateNow ev) (key_of p identifier) s) = ∅).
  { unfold live_log, lookup_live. rewrite Hs.
    destruct (live _ _); cbn [val]; [|apply map_filter_empty].
    apply map_empty_filter_2. intros m sc Hm. specialize (Hscores m sc Hm).
    unfold outside. cbn in *. tauto. }
  rewrite Hz1, map_size_empty in Hc. change (Z.of_nat 0) with 0 in Hc.
  destruct (Z.ltb_spec 0 (maxRequests p)); [|lia].
  rewrite insert_empty in Hc. unfold zset_min_score in Hc.
  rewrite map_fold_singleton in Hc.
  rewrite Hc. cbn [fst snd]. rewrite stored_log_insert. split; [|done].
  unfold sliding_fresh_result. cbn zeta.
  destruct (Z.leb_spec (0 + 1) (maxRequests p)); [|lia]. reflexivity.
Qed.

(** The full log of "u2", checked six seconds later. *)
Lemma sliding_silence_restarts_witness :
  (SlidingWindowRateLimiter.check sliding_3_per_5 "u2" (Env 1006000 4)
     sliding_full_store).1
  = Fulfilled (sliding_fresh_result sliding_3_per_5 (Env 1006000 4))
  ∧ stored_log (key_of sliding_3_per_5 "u2")
      (SlidingWindowRateLimiter.check sliding_3_per_5 "u2" (Env 1006000 4)
         sliding_full_store).2
    = Some {[ (1006000, 4%N) := 1006000 ]}.
Proof.
  assert (Hp : valid sliding_3_per_5) by (split; cbn; lia).
  assert (Hscores : scores_within 0
            (dateNow (Env 1006000 4) - windowSeconds sliding_3_per_5 * 1000)
            {[ (1000000, 1%N) := 1000000; (1000000, 2%N) := 1000000;
               (1000000, 3%N) := 1000000 ]}).
  { unfold scores_within. apply (bool_decide_unpack _). by vm_compute. }
  exact (sliding_silence_restarts sliding_3_per_5 "u2" (Env 1006000 4)
           sliding_full_store _ (Some 1005000) Hp eq_refl Hscores).
Defined.


(** ** Leaky bucket: what a check does to the level *)

(** The bucket of "u3" filled by five checks, then checked a second later. *)
Lemma leaky_level_at_most_limit_plus_one_witness :
  ∃ level : Q,
    stored_level (key_of leaky_5_per_10 "u3")
      (run_checks (LeakyBucket leaky_5_per_10) "u3" leaky_fill_then_wait ∅).2
    = Some level
    ∧ (0 <= level)%Q ∧ (level <= inject_Z (maxRequests leaky_5_per_10) + 1)%Q.
Proof.
  assert (Hp : valid leaky_5_per_10) by (split; cbn; lia).
  assert (Hsorted : clock_monotone leaky_fill_then_wait).
  { unfold clock_monotone, leaky_fill_then_wait.
    repeat (constructor; [|repeat constructor; cbn; lia]). constructor. }
  assert (Hne : leaky_fill_then_wait ≠ []) by discriminate.
  exact (leaky_level_at_most_limit_plus_one leaky_5_per_10 "u3" leaky_fill_then_wait ∅
           Hp eq_refl Hsorted Hne).
Defined.

(** One check, in terms of the bucket it finds. *)
Lemma leaky_check_on_bucket (p : params) (identifier : string) (ev : env) (s : store)
    (level : Q) (last : Z) (x : option Z) :
  1 ≤ windowSeconds p →
  lookup_live (dateNow ev) (key_of p identifier) s = Some (Entry (VBucket level last) x) →
  let next := leaky_next p (dateNow ev) level last in
  LeakyBucketRateLimiter.check p identifier ev s
  = (Fulfilled (leaky_reply_result p (dateNow ev) (if next.1 then 1 else 0)
                  (LeakyBucketRateLimiter.lua_number_to_integer next.2)),
     <[key_of p identifier := Entry (VBucket next.2 (dateNow ev))
                                (Some (dateNow ev + windowSeconds p * 2 * 1000))]> s).
Proof.
  intros HW Hk.
  unfold LeakyBucketRateLimiter.check, LeakyBucketRateLimiter.eval, mbind, cmd_bind,
    mret, cmd_ret.
  rewrite (leaky_script_bucket _ _ _ _ _ _ HW s level last x Hk). reflexivity.
Qed.

Lemma leaky_check_on_nothing (p : params) (identifier : string) (ev : env) (s : store) :
  1 ≤ windowSeconds p →
  lookup_live (dateNow ev) (key_of p identifier) s = None →
  let next := leaky_next p (dateNow ev) 0 (dateNow ev) in
  LeakyBucketRateLimiter.check p identifier ev s
  = (Fulfilled (leaky_reply_result p (dateNow ev) (if next.1 then 1 else 0)
                  (LeakyBucketRateLimiter.lua_number_to_integer next.2)),
     <[key_of p identifier := Entry (VBucket next.2 (dateNow ev))
                                (Some (dateNow ev + windowSeconds p * 2 * 1000))]> s).
Proof.
  intros HW Hk.
  unfold LeakyBucketRateLimiter.check, LeakyBucketRateLimiter.eval, mbind, cmd_bind,
    mret, cmd_ret.
  rewrite (leaky_script_absent _ _ _ _ _ _ HW s Hk). reflexivity.
Qed.

(** The script's step when the leaked level is the integer [j]. *)
Lemma leaky_next_integer (p : params) (now : Z) (level : Q) (last j : Z) :
  0 ≤ j →
  (Qmax 0 (level - inject_Z (now - last) / 1000 * LeakyBucketRateLimiter.leakRate p)
   == inject_Z j)%Q →
  (leaky_next p now level last).1 = (j <? maxRequests p)
  ∧ ((leaky_next p now level last).2
     == inject_Z (if j <? maxRequests p then j + 1 else j))%Q
  ∧ LeakyBucketRateLimiter.lua_number_to_integer (leaky_next p now level last).2
    = (if j <? maxRequests p then j + 1 else j).
Proof.
  intros Hj Hl. unfold leaky_next. cbn [fst snd].
  set (level1 := Qmax 0 _) in *.
  assert (Hb : LeakyBucketRateLimiter.Qltb level1 (inject_Z (maxRequests p))
               = (j <? maxRequests p)).
  { destruct (Z.ltb_spec j (maxRequests p)) as [H|H].
    - apply Qltb_lt. rewrite Hl. by rewrite <- Zlt_Qlt.
    - destruct (LeakyBucketRateLimiter.Qltb _ _) eqn:E; [|done].
      apply Qltb_lt in E. rewrite Hl, <- Zlt_Qlt in E. lia. }
  rewrite Hb. split; [done|].
  destruct (j <? maxRequests p).
  - assert (level1 + 1 == inject_Z (j + 1))%Q as Heq.
    { rewrite Hl, inject_Z_plus. reflexivity. }
    split; [done|]. apply lua_number_eq; [lia | done].
  - split; [done|]. by apply lua_number_eq.
Qed.

Lemma leaked_at_least (p : params) (d n : Z) :
  valid p →
  n * 1000 * windowSeconds p ≤ d * maxRequests p →
  (inject_Z n <= inject_Z d / 1000 * LeakyBucketRateLimiter.leakRate p)%Q.
Proof.
  intros [Hmax HW] H. unfold LeakyBucketRateLimiter.leakRate.
  assert (HW0 : ¬ (inject_Z (windowSeconds p) == 0)%Q).
  { change 0%Q with (inject_Z 0). rewrite inject_Z_injective. lia. }
  assert (Heq : (inject_Z d / 1000 * (inject_Z (maxRequests p) / inject_Z (windowSeconds p))
                 == inject_Z (d * maxRequests p) / inject_Z (1000 * windowSeconds p))%Q).
  { rewrite !inject_Z_mult. change (inject_Z 1000) with 1000%Q. by field. }
  rewrite Heq. apply Qle_shift_div_l.
  - change 0%Q with (inject_Z 0). rewrite <- Zlt_Qlt. lia.
  - rewrite <- inject_Z_mult, <- Zle_Qle. lia.
Qed.

(** X9. Leaky Bucket: when at least [1 / leakRate] seconds have passed
    since the level was last persisted (elapsed milliseconds times limit at
    least 1000 times windowSeconds) and that level was below [limit + 1],
    the check is allowed. *)
Theorem leaky_admits_after_wait (p : params) (identifier : string) (ev : env)
    (s : store) (level : Q) (last : Z) (x : option Z) :
  valid p →
  s !! key_of p identifier = Some (Entry (VBucket level last) x) →
  (level < inject_Z (maxRequests p) + 1)%Q →
  1000 * windowSeconds p ≤ (dateNow ev - last) * maxRequests p →
  ∃ r : RateLimitResult,
    (LeakyBucketRateLimiter.check p identifier ev s).1 = Fulfilled r
    ∧ allowed r = true ∧ retryAfter r = 0.
Proof.
  intros Hp Hs Hlevel Hwait. pose proof Hp as [Hmax HW].
  destruct (lookup_live (dateNow ev) (key_of p identifier) s) as [e|] eqn:Hk.
  - apply lookup_live_Some in Hk as Hk'. destruct Hk' as [Hs' _].
    rewrite Hs in Hs'. injection Hs' as <-.
    rewrite (leaky_check_on_bucket p identifier ev s level last x HW Hk). cbn [fst].
    assert (Ha : (leaky_next p (dateNow ev) level last).1 = true).
    { unfold leaky_next. cbn [fst]. apply Qltb_lt.
      pose proof (leaked_at_least p (dateNow ev - last) 1 Hp ltac:(lia)) as Hleak.
      change (inject_Z 1) with 1%Q in Hleak.
      apply Q.max_lub_lt.
      - change 0%Q with (inject_Z 0). rewrite <- Zlt_Qlt. lia.
      - lra. }
    rewrite Ha. eexists. split; [reflexivity|]. by cbn.
  - rewrite (leaky_check_absent p identifier ev s Hp Hk).
    eexists. split; [reflexivity|]. by cbn.
Qed.

(** The bucket of "u3" at level 5, checked two seconds after the last check. *)
Lemma leaky_admits_after_wait_witness :
  ∃ r : RateLimitResult,
    (LeakyBucketRateLimiter.check leaky_5_per_10 "u3" (Env 1002000 0)
       {[ key_of leaky_5_per_10 "u3" := Entry (VBucket 5 1000000) (Some 1020000) ]}).1
    = Fulfilled r
    ∧ allowed r = true ∧ retryAfter r = 0.
Proof.
  assert (Hp : valid leaky_5_per_10) by (split; cbn; lia).
  assert (Hlevel : (5 < inject_Z (maxRequests leaky_5_per_10) + 1)%Q) by reflexivity.
  assert (Hwait : 1000 * windowSeconds leaky_5_per_10
                  ≤ (dateNow (Env 1002000 0) - 1000000) * maxRequests leaky_5_per_10)
    by (cbn; lia).
  exact (leaky_admits_after_wait leaky_5_per_10 "u3" (Env 1002000 0)
           {[ key_of leaky_5_per_10 "u3" := Entry (VBucket 5 1000000) (Some 1020000) ]}
           5 1000000 (Some 1020000) Hp eq_refl Hlevel Hwait).
Defined.

(** X10. Leaky Bucket: the expiry of [2 * windowSeconds] never changes a
    result.  When a bucket with a level in [0, limit + 1) was last persisted
    [2 * windowSeconds] seconds ago or more, the check returns what it
    returns for an identifier never seen, whether the key is still there or
    has expired. *)
Theorem leaky_expiry_is_safe (p : params) (identifier : string) (ev : env)
    (s : store) (level : Q) (last : Z) (x : option Z) :
  valid p →
  s !! key_of p identifier = Some (Entry (VBucket level last) x) →
  (0 <= level)%Q → (level < inject_Z (maxRequests p) + 1)%Q →
  last + windowSeconds p * 2 * 1000 ≤ dateNow ev →
  (LeakyBucketRateLimiter.check p identifier ev s).1
  = Fulfilled (leaky_fresh_result p ev).
Proof.
  intros Hp Hs Hl0 Hl1 Hlate. pose proof Hp as [Hmax HW].
  destruct (lookup_live (dateNow ev) (key_of p identifier) s) as [e|] eqn:Hk;
    [|by apply leaky_check_absent].
  apply lookup_live_Some in Hk as Hk'. destruct Hk' as [Hs' _].
  rewrite Hs in Hs'. injection Hs' as <-.
  rewrite (leaky_check_on_bucket p identifier ev s level last x HW Hk). cbn [fst].
  assert (Hzero : (Qmax 0 (level - inject_Z (dateNow ev - last) / 1000
                                   * LeakyBucketRateLimiter.leakRate p)
                   == inject_Z 0)%Q).
  { pose proof (leaked_at_least p (dateNow ev - last) (2 * maxRequests p) Hp
                  ltac:(nia)) as Hleak.
    rewrite inject_Z_mult in Hleak. change (inject_Z 2) with 2%Q in Hleak.
    assert (1 <= inject_Z (maxRequests p))%Q as H1.
    { change 1%Q with (inject_Z 1). by rewrite <- Zle_Qle. }
    change (inject_Z 0) with 0%Q. apply Q.max_l. lra. }
  destruct (leaky_next_integer p (dateNow ev) level last 0 ltac:(lia) Hzero)
    as (Ha & _ & Hn).
  rewrite Ha, Hn. destruct (Z.ltb_spec 0 (maxRequests p)); [|lia]. reflexivity.
Qed.

(** The bucket of "u3" at level 5, checked twenty seconds after the last
    check, with the key still there. *)
Lemma leaky_expiry_is_safe_witness :
  (LeakyBucketRateLimiter.check leaky_5_per_10 "u3" (Env 1020000 0)
     {[ key_of leaky_5_per_10 "u3" := Entry (VBucket 5 1000000) None ]}).1
  = Fulfilled (leaky_fresh_result leaky_5_per_10 (Env 1020000 0)).
Proof.
  assert (Hp : valid leaky_5_per_10) by (split; cbn; lia).
  assert (Hl0 : (0 <= 5)%Q) by (intros H; discriminate H).
  assert (Hl1 : (5 < inject_Z (maxRequests leaky_5_per_10) + 1)%Q) by reflexivity.
  assert (Hlate : 1000000 + windowSeconds leaky_5_per_10 * 2 * 1000
                  ≤ dateNow (Env 1020000 0)) by (cbn; lia).
  exact (leaky_expiry_is_safe leaky_5_per_10 "u3" (Env 1020000 0)
           {[ key_of leaky_5_per_10 "u3" := Entry (VBucket 5 1000000) None ]}
           5 1000000 None Hp eq_refl Hl0 Hl1 Hlate).
Defined.

Lemma same_instant_level (p : params) (t : Z) (level : Q) (j : Z) :
  0 ≤ j → (level == inject_Z j)%Q →
  (Qmax 0 (level - inject_Z (t - t) / 1000 * LeakyBucketRateLimiter.leakRate p)
   == inject_Z j)%Q.
Proof.
  intros Hj Hl. rewrite Z.sub_diag.
  assert (0 <= level)%Q.
  { rewrite Hl. change 0%Q with (inject_Z 0). by rewrite <- Zle_Qle. }
  rewrite Q.max_r.
  - rewrite Hl. unfold Qminus, Qdiv. change (inject_Z 0) with 0%Q. ring.
  - unfold Qminus, Qdiv. change (inject_Z 0) with 0%Q. ring_simplify. done.
Qed.

Lemma leaky_burst_step (p : params) (t j : Z) (level : Q) :
  1 ≤ maxRequests p →
  0 ≤ j → (level == inject_Z (Z.min j (maxRequests p)))%Q →
  (leaky_next p t level t).1 = (j <? maxRequests p)
  ∧ ((leaky_next p t level t).2 == inject_Z (Z.min (j + 1) (maxRequests p)))%Q
  ∧ LeakyBucketRateLimiter.lua_number_to_integer (leaky_next p t level t).2
    = Z.min (j + 1) (maxRequests p).
Proof.
  intros Hmax Hj Hl.
  destruct (leaky_next_integer p t level t (Z.min j (maxRequests p)) ltac:(lia)
              (same_instant_level p t level (Z.min j (maxRequests p)) ltac:(lia) Hl))
    as (Ha & Hq & Hn).
  rewrite Ha, Hn.
  destruct (Z.ltb_spec j (maxRequests p)) as [H|H].
  - rewrite (proj2 (Z.ltb_lt (Z.min j (maxRequests p)) (maxRequests p))) in * by lia.
    split; [done|]. split; [|lia].
    etransitivity; [exact Hq|]. f_equiv. lia.
  - rewrite (proj2 (Z.ltb_ge (Z.min j (maxRequests p)) (maxRequests p))) in * by lia.
    split; [done|]. split; [|lia].
    etransitivity; [exact Hq|]. f_equiv. lia.
Qed.

(** The result of the check number [j + 1] of a burst at instant [t]. *)
Lemma leaky_burst_run (p : params) (identifier : string) (t : Z) (evs : list env) :
  valid p →
  Forall (λ ev, dateNow ev = t) evs →
  ∀ (s : store) (j : Z) (level : Q),
    0 ≤ j →
    (level == inject_Z (Z.min j (maxRequests p)))%Q →
    s !! key_of p identifier
    = Some (Entry (VBucket level t) (Some (t + windowSeconds p * 2 * 1000))) →
    (run_checks (LeakyBucket p) identifier evs s).1
    = imap (λ i _, Fulfilled
                     (leaky_reply_result p t
                        (if j + Z.of_nat i <? maxRequests p then 1 else 0)
                        (Z.min (j + Z.of_nat i + 1) (maxRequests p)))) evs.
Proof.
  intros Hp Hall. pose proof Hp as [Hmax HW].
  induction Hall as [|ev evs Hev Hall IH]; intros s j level Hj Hl Hs; [done|].
  cbn [run_checks RateLimiter.check].
  assert (Hk : lookup_live (dateNow ev) (key_of p identifier) s
               = Some (Entry (VBucket level t) (Some (t + windowSeconds p * 2 * 1000)))).
  { unfold lookup_live. rewrite Hs. cbn. rewrite Hev.
    destruct (Z.leb_spec t (t + windowSeconds p * 2 * 1000)); [done | lia]. }
  rewrite (leaky_check_on_bucket p identifier ev s level t _ HW Hk). rewrite Hev.
  destruct (leaky_burst_step p t j level Hmax Hj Hl) as (Ha & Hq & Hn).
  specialize (IH (<[key_of p identifier :=
                      Entry (VBucket (leaky_next p t level t).2 t)
                        (Some (t + windowSeconds p * 2 * 1000))]> s)
                (j + 1) _ ltac:(lia) Hq (lookup_insert_eq _ _ _)).
  destruct (run_checks _ _ evs _) as [os s2]. cbn [fst] in IH |- *. subst os.
  cbn [imap]. rewrite Ha, Hn, Z.add_0_r. f_equal.
  apply imap_ext. intros i x _. cbn [compose].
  replace (j + 1 + Z.of_nat i) with (j + Z.of_nat (S i)) by lia. done.
Qed.

(** X11. Leaky Bucket: a burst at one instant from an absent key.  The
    first [limit] checks are allowed with [current] = 1, 2, ..., [limit]
    and [remaining = limit - current]; every further check at that instant
    is rejected with [current = limit], [remaining = 0] and
    [retryAfter = 1]. *)
Theorem leaky_burst_capacity (p : params) (identifier : string) (t : Z)
    (evs : list env) (s : store) :
  valid p →
  s !! key_of p identifier = None →
  Forall (λ ev, dateNow ev = t) evs →
  ∀ (i : nat) (ev : env),
    evs !! i = Some ev →
    ∃ r : RateLimitResult,
      (run_checks (LeakyBucket p) identifier evs s).1 !! i = Some (Fulfilled r)
      ∧ (Z.of_nat i < maxRequests p →
         allowed r = true ∧ current r = Z.of_nat i + 1
         ∧ remaining r = maxRequests p - (Z.of_nat i + 1) ∧ retryAfter r = 0)
      ∧ (maxRequests p ≤ Z.of_nat i →
         allowed r = false ∧ current r = maxRequests p
         ∧ remaining r = 0 ∧ retryAfter r = 1).
Proof.
  intros Hp Hs Hall i ev Hi. pose proof Hp as [Hmax HW].
  assert (Hrun : (run_checks (LeakyBucket p) identifier evs s).1
                 = imap (λ i _, Fulfilled
                           (leaky_reply_result p t
                              (if Z.of_nat i <? maxRequests p then 1 else 0)
                              (Z.min (Z.of_nat i + 1) (maxRequests p)))) evs).
  { destruct Hall as [|ev0 evs Hev0 Hall]; [done|].
    cbn [run_checks RateLimiter.check].
    rewrite (leaky_check_on_nothing p identifier ev0 s HW
               (lookup_live_absent _ _ _ Hs)). rewrite Hev0.
    assert (H0 : (0 == inject_Z (Z.min 0 (maxRequests p)))%Q).
    { rewrite Z.min_l by lia. reflexivity. }
    destruct (leaky_burst_step p t 0 0%Q Hmax ltac:(lia) H0) as (Ha & Hq & Hn).
    pose proof (leaky_burst_run p identifier t evs Hp Hall
                  (<[key_of p identifier :=
                       Entry (VBucket (leaky_next p t 0 t).2 t)
                         (Some (t + windowSeconds p * 2 * 1000))]> s)
                  1 _ ltac:(lia) Hq (lookup_insert_eq _ _ _)) as Hrest.
    destruct (run_checks _ _ evs _) as [os s2]. cbn [fst] in Hrest |- *. subst os.
    cbn [imap]. rewrite Ha, Hn. f_equal.
    apply imap_ext. intros k x _. cbn [compose].
    replace (1 + Z.of_nat k) with (Z.of_nat (S k)) by lia. done. }
  rewrite Hrun, list_lookup_imap, Hi. cbn [fmap option_fmap option_map].
  eexists. split; [reflexivity|].
  unfold leaky_reply_result. cbn [allowed current remaining retryAfter].
  rewrite Qceiling_Z.
  destruct (Z.ltb_spec (Z.of_nat i) (maxRequests p)) as [Hlt|Hge].
  - split; [|lia]. intros _. cbn. repeat split; lia.
  - split; [lia|]. intros _. cbn [Z.eqb].
    rewrite Z.min_r, Z.sub_diag by lia.
    assert (Hz : (inject_Z 0 / LeakyBucketRateLimiter.leakRate p == 0)%Q).
    { unfold Qdiv. change (inject_Z 0) with 0%Q. ring. }
    rewrite Hz. change (Qceiling 0) with 0. repeat split; lia.
Qed.

(** Six checks at one instant, limit 5: the sixth is the first rejected. *)
Lemma leaky_burst_capacity_witness :
  ∃ r : RateLimitResult,
    (run_checks (LeakyBucket leaky_5_per_10) "u3" (replicate 6 (Env 1000000 0)) ∅).1
    !! 5%nat = Some (Fulfilled r)
    ∧ (Z.of_nat 5 < maxRequests leaky_5_per_10 →
       allowed r = true ∧ current r = Z.of_nat 5 + 1
       ∧ remaining r = maxRequests leaky_5_per_10 - (Z.of_nat 5 + 1)
       ∧ retryAfter r = 0)
    ∧ (maxRequests leaky_5_per_10 ≤ Z.of_nat 5 →
       allowed r = false ∧ current r = maxRequests leaky_5_per_10
       ∧ remaining r = 0 ∧ retryAfter r = 1).
Proof.
  assert (Hp : valid leaky_5_per_10) by (split; cbn; lia).
  assert (Hall : Forall (λ ev, dateNow ev = 1000000) (replicate 6 (Env 1000000 0)))
    by repeat constructor.
  exact (leaky_burst_capacity leaky_5_per_10 "u3" 1000000
           (replicate 6 (Env 1000000 0)) ∅ Hp eq_refl Hall 5%nat (Env 1000000 0) eq_refl).
Defined.


(** ** The facade: identifiers and the middleware *)


Lemma truthy_None (v : option string) :
  RateLimiter.truthy v = None → v = None ∨ v = Some "".
Proof. destruct v as [[|a v]|]; cbn; intros; try discriminate; auto. Qed.



(** X13. The middleware settles every request in exactly one way: it
    either calls [next()] or answers 429, never both and never neither.  It
    answers 429 exactly when the check returned a result that is not
    allowed and the [onLimitReached] callback, if any, did not throw; a
    failed check and a throwing callback both let the request through.  The
    store it leaves is the one the check leaves. *)
Theorem middleware_next_or_429 (a : IRateLimitAlgorithm)
    (identifierFn : option (RateLimiter.request → string))
    (onLimitReached : option RateLimiter.callback)
    (req : RateLimiter.request) (ev : env) (s : store) :
  let o := RateLimiter.checkRequest a identifierFn req ev s in
  let m := RateLimiter.middleware a identifierFn onLimitReached req ev s in
  length (filter (λ e, is_next e || is_429 e) m.1) = 1%nat
  ∧ existsb is_429 m.1 = not_allowed o.1 && negb (throws onLimitReached)
  ∧ existsb is_next m.1 = negb (not_allowed o.1 && negb (throws onLimitReached))
  ∧ m.2 = o.2.
Proof.
  cbv zeta. unfold RateLimiter.middleware.
  destruct (RateLimiter.checkRequest a identifierFn req ev s) as [[r|lim reset retry|e] s'];
    cbn [fst snd not_allowed].
  - destruct (allowed r); [done|].
    destruct onLimitReached as [[]|]; done.
  - destruct onLimitReached as [[]|]; done.
  - done.
Qed.

(** X14. The middleware fails open on a payload that cannot be read: when
    the key of the request's identifier holds a live value that the leaky
    bucket script cannot decode, or that is not a sorted set for the sliding
    window, the middleware logs the error and calls [next()], sets no
    header, and leaves the store as it was, so the same happens to the next
    request of that identifier. *)
Theorem middleware_fails_open_on_unreadable_state (p : params)
    (identifierFn : option (RateLimiter.request → string))
    (onLimitReached : option RateLimiter.callback)
    (req : RateLimiter.request) (ev : env) (s : store) (e : entry) :
  lookup_live (dateNow ev)
    (key_of p (RateLimiter.identifierFn_of identifierFn req)) s = Some e →
  (LeakyBucketRateLimiter.cjson_decode (val e) = None →
   RateLimiter.middleware (LeakyBucket p) identifierFn onLimitReached req ev s
   = ([RateLimiter.ConsoleError; RateLimiter.Next], s))
  ∧ ((∀ z, val e ≠ VZSet z) →
     RateLimiter.middleware (SlidingWindow p) identifierFn onLimitReached req ev s
     = ([RateLimiter.ConsoleError; RateLimiter.Next], s)).
Proof.
  intros Hk. unfold RateLimiter.middleware, RateLimiter.checkRequest, RateLimiter.check.
  split.
  - intros Hd.
    destruct (leaky_script_unreadable (dateNow ev) _ (dateNow ev) (maxRequests p)
                (LeakyBucketRateLimiter.leakRate p) (windowSeconds p) s e Hk Hd)
      as [err Herr].
    unfold LeakyBucketRateLimiter.check, LeakyBucketRateLimiter.eval, mbind, cmd_bind.
    by rewrite Herr.
  - intros Hv. unfold SlidingWindowRateLimiter.check.
    by rewrite (sliding_script_wrong_type _ _ _ _ _ _ _ s e Hk Hv).
Qed.

(** A request from 10.0.0.7 whose key holds text that is not JSON. *)
Lemma middleware_fails_open_on_unreadable_state_witness :
  let req := RateLimiter.Request None None (Some "10.0.0.7") None in
  let s : store := {[ key_of leaky_5_per_10 "10.0.0.7" := Entry (VRaw "not json") None ]} in
  (LeakyBucketRateLimiter.cjson_decode (VRaw "not json") = None →
   RateLimiter.middleware (LeakyBucket leaky_5_per_10) None None req (Env 1000000 0) s
   = ([RateLimiter.ConsoleError; RateLimiter.Next], s))
  ∧ ((∀ z, VRaw "not json" ≠ VZSet z) →
     RateLimiter.middleware (SlidingWindow leaky_5_per_10) None None req (Env 1000000 0) s
     = ([RateLimiter.ConsoleError; RateLimiter.Next], s)).
Proof.
  exact (middleware_fails_open_on_unreadable_state leaky_5_per_10 None None
           (RateLimiter.Request None None (Some "10.0.0.7") None) (Env 1000000 0)
           {[ key_of leaky_5_per_10 "10.0.0.7" := Entry (VRaw "not json") None ]}
           (Entry (VRaw "not json") None) eq_refl).
Defined.

(** X15. Fixed Window Counter: in every store reachable by checks and
    resets (positive limit and window) every counter holds a count of at
    least 1 and has an expiry time; no check leaves a counter that would
    live for ever. *)
Theorem fixed_counters_always_expire (p : params) (s : store) :
  valid p →
  reachable (FixedWindow p) s →
  ∀ (k : string) (e : entry),
    s !! k = Some e →
    ∃ n exp : Z, e = Entry (VInt n) (Some exp) ∧ 1 ≤ n.
Proof.
  intros Hp Hr k e Hk.
  exact (reachable_store_invariant (FixedWindow p) s Hp Hr k e Hk).
Qed.

(** The counter of "u1" after one check at [t = 0]. *)
Lemma fixed_counters_always_expire_witness :
  ∃ n exp : Z, Entry (VInt 1) (Some 60000) = Entry (VInt n) (Some exp) ∧ 1 ≤ n.
Proof.
  assert (Hp : valid (Params 10 60 "rate_limit:")) by (split; cbn; lia).
  exact (fixed_counters_always_expire (Params 10 60 "rate_limit:")
           (step (FixedWindow (Params 10 60 "rate_limit:")) (OpCheck "u1" (Env 0 0)) ∅)
           Hp (reachable_step _ _ _ (reachable_empty _))
           "rate_limit:u1" _ eq_refl).
Defined.
